(** * Stage-based reserved concurrency plugin: model and verified properties

    A shallow embedding of the Serverless plugin [StageBasedConcurrencyPlugin].
    Two revisions of the plugin entry are part of the repository: the batched
    one (the main development below) and an earlier one without batching and
    without the single-function hook ([Module Legacy]).

    Conventions of the embedding
    - JS strings are [string]; [toLowerCase] lowers the letters A-Z and leaves
      every other character alone.
    - A JS object used as a dictionary is a [gmap string _]; where the code
      walks [Object.entries], the object is the list of its entries, in the
      order [Object.entries] yields them.
    - The remote provider ([provider.request]) is outside the plugin: it is a
      parameter of the development, an arbitrary function of a remote world.
    - An [async] function that awaits provider requests is a task: a small
      state machine that advances each time one of its requests settles.
      [Promise.all] over a batch advances the tasks of the batch in an order
      chosen by a schedule, which is a parameter as well. *)

From Stdlib Require Import Ascii String.
From stdpp Require Import base decidable option list strings gmap.

Local Open Scope string_scope.
Local Open Scope list_scope.
Local Open Scope nat_scope.
Local Open Scope stdpp_scope.

(** ** JS string primitives used by the plugin *)

Definition lower_char (c : ascii) : ascii :=
  let n := nat_of_ascii c in
  if (65 <=? n)%nat && (n <=? 90)%nat then ascii_of_nat (n + 32) else c.

Fixpoint toLowerCase (s : string) : string :=
  match s with
  | EmptyString => EmptyString
  | String c s' => String (lower_char c) (toLowerCase s')
  end.

(** [s.startsWith(p)] *)
Definition startsWith (s p : string) : bool := String.prefix p s.

(** [s.includes(p)]: [p] occurs in [s] at some position. *)
Fixpoint includes (s p : string) : bool :=
  String.prefix p s ||
  match s with
  | EmptyString => false
  | String _ s' => includes s' p
  end.

(** ** Constants of the class *)

Definition WARMUP_FUNCTION_IDENTIFIER : string := "warmUp".
Definition DEV_STAGES : list string := ["dev"; "development"; "feature"].
Definition AWS_CONCURRENCY_BATCH_SIZE : nat := 5.

(** ** Stage classification *)

Definition _isDevelopmentStage (stage : string) : bool :=
  let lowerStage := toLowerCase stage in
  bool_decide (lowerStage ∈ DEV_STAGES) || startsWith lowerStage "feature-".

(** ** The deployment descriptor *)

(** Values a descriptor holds. A property that is missing from an object
    reads as [undefined]; a property that is there holds one of these. *)
#[warnings="-register-all"]
Inductive JsValue :=
| JsNull
| JsBoolean (b : bool)
| JsNumber (n : Z)
| JsString (s : string)
| JsObject (properties : list (string * JsValue)).

(** [interface FunctionConfig { reservedConcurrency?: number; [key: string]: any }] *)
Abbreviation FunctionConfig := (gmap string JsValue).

(** [Record<string, FunctionConfig>], as [Object.entries] lists it. *)
Abbreviation Functions := (list (string * FunctionConfig)).

Record Serverless := {
  service : string;               (* serverless.service.service *)
  stage : string;                 (* serverless.service.provider.stage *)
  functions : option Functions;   (* serverless.service.functions, nullish when None *)
}.

Record ServerlessOptions := {
  function : option string;       (* options.function *)
}.

Record ProcessingResult := {
  modifiedCount : nat;
  errorCount : nat;
}.

(** ** The log sink

    One constructor per message template of the source. The elapsed time that
    [_measureExecutionTime] prints is not part of the model. *)
Inductive Message :=
| DevelopmentStageDetected (stage : string)
| ProductionStageDetected (stage : string)
| RemovingFromConfig (functionName : string)
| ModifiedFunctions (count : nat)
| NoFunctionsInConfig
| SkippingWarmUp (awsFunctionName : string)
| RemovingFromAws (awsFunctionName : string)
| RemovedFromAws (awsFunctionName : string)
| ErrorRemovingFromAws (functionName message : string)
| RemovedFromAwsCount (count : nat)
| NoFunctionsInAws
| FailedToRemoveCount (count : nat)
| NoFunctionSpecified
| NoReservedConcurrencyFound (awsFunctionName : string)
| Starting (operation : string)
| Finished (operation : string)
| Failed (operation message : string).

Inductive Level := INFO | ERROR.

Abbreviation LogEntry := (Level * Message)%type.

Definition is_error (e : LogEntry) : bool :=
  match fst e with ERROR => true | INFO => false end.

(** ** The remote provider *)

Inductive Method := getFunctionConfiguration | deleteFunctionConcurrency.

(** How a [provider.request('Lambda', method, { FunctionName })] settles: the
    promise rejects with an error, or it is fulfilled with a response object,
    of which the plugin reads [ReservedConcurrentExecutions] only. *)
Inductive Response :=
| Rejected (message : string)
| Fulfilled (ReservedConcurrentExecutions : option Z).

Record Request := {
  method : Method;
  FunctionName : string;
  response : Response;
}.

(** How a function body ends. *)
Inductive Completion (T : Type) :=
| Return (value : T)
| Throw (message : string).
Arguments Return {T} value.
Arguments Throw {T} message.

(** ** State the plugin acts on

    The descriptor is the host's object, which the plugin mutates in place;
    [remote] is the provider's world; [requests] lists the requests that have
    settled, oldest first; [logged] is what the log sink received. *)
Record State (World : Type) := {
  descriptor : Serverless;
  remote : World;
  requests : list Request;
  logged : list LogEntry;
}.
Arguments descriptor {World} _.
Arguments remote {World} _.
Arguments requests {World} _.
Arguments logged {World} _.

Definition log {World} (lvl : Level) (m : Message) (st : State World) : State World :=
  {| descriptor := descriptor st; remote := remote st;
     requests := requests st; logged := logged st ++ [(lvl, m)] |}.

Definition set_functions {World} (fs : Functions) (st : State World) : State World :=
  {| descriptor := {| service := service (descriptor st);
                      stage := stage (descriptor st);
                      functions := Some fs |};
     remote := remote st; requests := requests st; logged := logged st |}.

(** [_measureExecutionTime]: log the start, run, log the end; an error that
    escapes [fn] is logged and thrown again. *)
Definition _measureExecutionTime {World T} (operation : string)
    (fn : State World → Completion T * State World) (st : State World)
    : Completion T * State World :=
  let '(c, st') := fn (log INFO (Starting operation) st) in
  match c with
  | Return r => (Return r, log INFO (Finished operation) st')
  | Throw message => (Throw message, log ERROR (Failed operation message) st')
  end.

(** ** Descriptor mutation *)

Section Descriptor.
Context {World : Type}.
Abbreviation State := (State World).

(** The config object after the call, and whether the field was removed. *)
Definition _removeConcurrencyFromFunction (functionName : string)
    (config : FunctionConfig) (st : State) : bool * FunctionConfig * State :=
  match config !! "reservedConcurrency" with
  | Some _ =>
      (true, delete "reservedConcurrency" config,
       log INFO (RemovingFromConfig functionName) st)
  | None => (false, config, st)
  end.

(** The [forEach] over [Object.entries(functions)]; the objects are mutated
    in place, so the walk yields the entries as they are afterwards. *)
Fixpoint forEach_entry (entries : Functions) (modifiedCount : nat) (st : State)
    : Functions * nat * State :=
  match entries with
  | [] => ([], modifiedCount, st)
  | (functionName, functionConfig) :: rest =>
      let '(removed, config', st1) :=
        _removeConcurrencyFromFunction functionName functionConfig st in
      let modifiedCount' := if removed then S modifiedCount else modifiedCount in
      let '(rest', n, st2) := forEach_entry rest modifiedCount' st1 in
      ((functionName, config') :: rest', n, st2)
  end.

Definition _processServerlessConfigFunctions (fs : Functions) (st : State)
    : Functions * ProcessingResult * State :=
  let '(fs', modifiedCount, st') := forEach_entry fs 0 st in
  (fs', {| modifiedCount := modifiedCount; errorCount := 0 |}, st').

Definition _logServerlessConfigResult (result : ProcessingResult) (st : State) : State :=
  if (0 <? modifiedCount result)%nat
  then log INFO (ModifiedFunctions (modifiedCount result)) st
  else log INFO NoFunctionsInConfig st.

(** [functions ?? {}]: when the descriptor has no mapping the walk is over a
    fresh empty object and the descriptor is left as it is. *)
Definition _removeReservedConcurrencyFromSLS (st : State) : Completion unit * State :=
  _measureExecutionTime "Remove reserved concurrency from Serverless config"
    (fun st =>
       match functions (descriptor st) with
       | Some fs =>
           let '(fs', result, st1) := _processServerlessConfigFunctions fs st in
           (Return tt, _logServerlessConfigResult result (set_functions fs' st1))
       | None =>
           let '(_, result, st1) := _processServerlessConfigFunctions [] st in
           (Return tt, _logServerlessConfigResult result st1)
       end) st.

End Descriptor.

(** ** Remote reconciliation *)

(** A call of [_checkAndRemoveReservedConcurrency] that is suspended at one of
    its two [await]s. *)
Inductive Awaiting :=
| AwaitingConfiguration (awsFunctionName : string)
| AwaitingDeletion (awsFunctionName : string).

(** A call of [_processAwsFunction] (or of [_processSingleAwsFunction]): it
    has returned its result, or it is inside its [try] block, suspended in
    [_checkAndRemoveReservedConcurrency]. *)
Inductive Task :=
| Returned (result : ProcessingResult)
| Suspended (functionName : string) (at_ : Awaiting).

Section Remote.
Context {World : Type}.
(** [provider.request('Lambda', method, { FunctionName })] *)
Variable request : Method → string → World → Response * World.
Abbreviation State := (State World).

(** The request settles: the remote world moves and the request is recorded. *)
Definition settle_request (m : Method) (awsFunctionName : string) (st : State)
    : Response * State :=
  let '(r, w) := request m awsFunctionName (remote st) in
  (r, {| descriptor := descriptor st; remote := w;
         requests := requests st ++
           [{| method := m; FunctionName := awsFunctionName; response := r |}];
         logged := logged st |}).

Definition _getFunctionName (functionName : string) (st : State) : string :=
  service (descriptor st) +:+ "-" +:+ stage (descriptor st) +:+ "-" +:+ functionName.

Definition _shouldSkipFunction (awsFunctionName : string) : bool :=
  includes awsFunctionName WARMUP_FUNCTION_IDENTIFIER.

(** [_checkAndRemoveReservedConcurrency], resumed when the awaited request
    settles: it suspends again, returns a boolean, or throws. *)
Definition _checkAndRemoveReservedConcurrency (a : Awaiting) (st : State)
    : (Awaiting + Completion bool) * State :=
  match a with
  | AwaitingConfiguration awsFunctionName =>
      let '(r, st1) := settle_request getFunctionConfiguration awsFunctionName st in
      match r with
      | Rejected message => (inr (Throw message), st1)
      | Fulfilled (Some _) =>
          (inl (AwaitingDeletion awsFunctionName),
           log INFO (RemovingFromAws awsFunctionName) st1)
      | Fulfilled None => (inr (Return false), st1)
      end
  | AwaitingDeletion awsFunctionName =>
      let '(r, st1) := settle_request deleteFunctionConcurrency awsFunctionName st in
      match r with
      | Rejected message => (inr (Throw message), st1)
      | Fulfilled _ =>
          (inr (Return true), log INFO (RemovedFromAws awsFunctionName) st1)
      end
  end.

(** [_processAwsFunction] up to its first [await]. *)
Definition _processAwsFunction (functionName : string) (st : State) : Task * State :=
  let awsFunctionName := _getFunctionName functionName st in
  if _shouldSkipFunction awsFunctionName
  then (Returned {| modifiedCount := 0; errorCount := 0 |},
        log INFO (SkippingWarmUp awsFunctionName) st)
  else (Suspended functionName (AwaitingConfiguration awsFunctionName), st).

(** The rest of [_processAwsFunction]: the [try] block goes on when the
    awaited request settles; what is thrown inside lands in the [catch]. *)
Definition resume (t : Task) (st : State) : Task * State :=
  match t with
  | Returned _ => (t, st)
  | Suspended functionName a =>
      let '(next, st1) := _checkAndRemoveReservedConcurrency a st in
      match next with
      | inl a' => (Suspended functionName a', st1)
      | inr (Return hasReservedConcurrency) =>
          (Returned {| modifiedCount := if hasReservedConcurrency then 1 else 0;
                       errorCount := 0 |}, st1)
      | inr (Throw message) =>
          (Returned {| modifiedCount := 0; errorCount := 1 |},
           log ERROR (ErrorRemovingFromAws functionName message) st1)
      end
  end.

Definition result_of (t : Task) : ProcessingResult :=
  match t with
  | Returned r => r
  | Suspended _ _ => {| modifiedCount := 0; errorCount := 0 |}
  end.

(** [batch.map(([functionName, _]) => this._processAwsFunction(functionName))]:
    every call runs up to its first [await], in the order of the batch. *)
Fixpoint start_batch (batch : Functions) (st : State) : list Task * State :=
  match batch with
  | [] => ([], st)
  | (functionName, _) :: rest =>
      let '(t, st1) := _processAwsFunction functionName st in
      let '(ts, st2) := start_batch rest st1 in
      (t :: ts, st2)
  end.

(** One pending request settles: the task at position [i] goes on. *)
Definition advance (i : nat) (ts : list Task) (st : State) : list Task * State :=
  match ts !! i with
  | Some t => let '(t', st') := resume t st in (<[i := t']> ts, st')
  | None => (ts, st)
  end.

Fixpoint interleave (schedule : list nat) (ts : list Task) (st : State)
    : list Task * State :=
  match schedule with
  | [] => (ts, st)
  | i :: schedule' =>
      let '(ts', st') := advance i ts st in interleave schedule' ts' st'
  end.

(** What is still pending settles, task after task; a task has at most two
    requests to wait for. *)
Fixpoint drain (ts : list Task) (st : State) : list ProcessingResult * State :=
  match ts with
  | [] => ([], st)
  | t :: ts' =>
      let '(t1, st1) := resume t st in
      let '(t2, st2) := resume t1 st1 in
      let '(rs, st3) := drain ts' st2 in
      (result_of t2 :: rs, st3)
  end.

(** [await Promise.all(tasks)]: the requests of the tasks settle in the order
    the schedule names them, then the remaining ones; the results come in the
    order of the tasks. *)
Definition Promise_all (schedule : list nat) (ts : list Task) (st : State)
    : list ProcessingResult * State :=
  let '(ts', st') := interleave schedule ts st in drain ts' st'.

Definition add_results (acc : ProcessingResult) (batchResults : list ProcessingResult)
    : ProcessingResult :=
  fold_left (fun acc result =>
               {| modifiedCount := modifiedCount acc + modifiedCount result;
                  errorCount := errorCount acc + errorCount result |})
            batchResults acc.

(** [functionEntries.slice(i, j)] *)
Definition slice {A} (i j : nat) (l : list A) : list A := take (j - i) (drop i l).

(** The [for] loop of [_processAwsFunctionsInBatches]; [fuel] bounds the
    number of iterations and [schedules] gives one schedule per batch. *)
Fixpoint batches_loop (fuel i : nat) (functionEntries : Functions)
    (schedules : list (list nat)) (acc : ProcessingResult) (st : State)
    : ProcessingResult * State :=
  match fuel with
  | O => (acc, st)
  | S fuel' =>
      if (i <? length functionEntries)%nat then
        let batch := slice i (i + AWS_CONCURRENCY_BATCH_SIZE) functionEntries in
        let '(ts, st1) := start_batch batch st in
        let '(batchResults, st2) := Promise_all (hd [] schedules) ts st1 in
        batches_loop fuel' (i + AWS_CONCURRENCY_BATCH_SIZE) functionEntries
                     (tl schedules) (add_results acc batchResults) st2
      else (acc, st)
  end.

Definition _processAwsFunctionsInBatches (functionEntries : Functions)
    (schedules : list (list nat)) (st : State) : ProcessingResult * State :=
  batches_loop (length functionEntries) 0 functionEntries schedules
               {| modifiedCount := 0; errorCount := 0 |} st.

Definition _logAwsResult (result : ProcessingResult) (st : State) : State :=
  let st1 :=
    if (0 <? modifiedCount result)%nat
    then log INFO (RemovedFromAwsCount (modifiedCount result)) st
    else if (errorCount result =? 0)%nat then log INFO NoFunctionsInAws st
    else st in
  if (0 <? errorCount result)%nat
  then log ERROR (FailedToRemoveCount (errorCount result)) st1
  else st1.

Definition _removeReservedConcurrencyFromAws (schedules : list (list nat)) (st : State)
    : Completion unit * State :=
  _measureExecutionTime "Remove reserved concurrency from AWS for all functions"
    (fun st =>
       let fs := default [] (functions (descriptor st)) in
       let '(result, st1) := _processAwsFunctionsInBatches fs schedules st in
       (Return tt, _logAwsResult result st1)) st.

(** *** The single-function form *)

(** [!functionName] holds for [undefined] and for the empty string. *)
Definition _validateFunctionName (functionName : option string) (st : State)
    : bool * State :=
  match functionName with
  | None | Some "" => (false, log ERROR NoFunctionSpecified st)
  | Some _ => (true, st)
  end.

(** [_processSingleAwsFunction] has the body of [_processAwsFunction]; alone,
    its two requests settle one after the other. *)
Definition _processSingleAwsFunction (functionName : string) (st : State)
    : ProcessingResult * State :=
  let '(t, st0) := _processAwsFunction functionName st in
  let '(t1, st1) := resume t st0 in
  let '(t2, st2) := resume t1 st1 in
  (result_of t2, st2).

Definition _logSingleFunctionResult (functionName : string) (result : ProcessingResult)
    (st : State) : State :=
  let awsFunctionName := _getFunctionName functionName st in
  if (0 <? modifiedCount result)%nat
  then log INFO (RemovedFromAws awsFunctionName) st
  else if (errorCount result =? 0)%nat
  then log INFO (NoReservedConcurrencyFound awsFunctionName) st
  else st.

Definition _removeReservedConcurrencyFromAwsForFunction (options : ServerlessOptions)
    (st : State) : Completion unit * State :=
  _measureExecutionTime "Remove reserved concurrency from AWS for single function"
    (fun st =>
       let functionName := function options in
       let '(valid, st1) := _validateFunctionName functionName st in
       if valid then
         let name := default "" functionName in
         let '(result, st2) := _processSingleAwsFunction name st1 in
         (Return tt, _logSingleFunctionResult name result st2)
       else (Return tt, st1)) st.

End Remote.

(** ** Lifecycle wiring *)

(** The operations a hook can be bound to. *)
Inductive Hook :=
| removeReservedConcurrencyFromSLS
| removeReservedConcurrencyFromAws
| removeReservedConcurrencyFromAwsForFunction.

Record Plugin := {
  options : ServerlessOptions;
  hooks : gmap string Hook;
}.

Definition constructor {World} (opts : ServerlessOptions) (st : State World)
    : Plugin * State World :=
  let stage := stage (descriptor st) in
  let isDev := _isDevelopmentStage stage in
  if isDev then
    ({| options := opts;
        hooks := list_to_map
          [("before:deploy:deploy", removeReservedConcurrencyFromSLS);
           ("before:deploy:function:deploy", removeReservedConcurrencyFromSLS);
           ("before:package:createDeploymentArtifacts", removeReservedConcurrencyFromSLS);
           ("before:aws:deploy:deploy:createStack", removeReservedConcurrencyFromSLS);
           ("after:aws:deploy:deploy:updateStack", removeReservedConcurrencyFromAws);
           ("after:deploy:function:deploy", removeReservedConcurrencyFromAwsForFunction)] |},
     log INFO (DevelopmentStageDetected stage) st)
  else
    ({| options := opts; hooks := ∅ |},
     log INFO (ProductionStageDetected stage) st).

Section Lifecycle.
Context {World : Type}.
Variable request : Method → string → World → Response * World.

Definition run_hook (plugin : Plugin) (h : Hook) (schedules : list (list nat))
    (st : State World) : Completion unit * State World :=
  match h with
  | removeReservedConcurrencyFromSLS => _removeReservedConcurrencyFromSLS st
  | removeReservedConcurrencyFromAws =>
      _removeReservedConcurrencyFromAws request schedules st
  | removeReservedConcurrencyFromAwsForFunction =>
      _removeReservedConcurrencyFromAwsForFunction request (options plugin) st
  end.

(** The host fires an extension point: the operation registered under that
    name runs, if there is one. *)
Definition fire (plugin : Plugin) (extensionPoint : string)
    (schedules : list (list nat)) (st : State World) : Completion unit * State World :=
  match hooks plugin !! extensionPoint with
  | Some h => run_hook plugin h schedules st
  | None => (Return tt, st)
  end.

End Lifecycle.

(** ** The earlier revision of the plugin entry *)

Module Legacy.

Inductive Hook :=
| removeReservedConcurrencyFromSLS
| removeReservedConcurrencyFromAws.

Definition _isDevelopmentStage (stage : string) : bool :=
  let lowerStage := toLowerCase stage in
  String.eqb lowerStage "dev" ||
  String.eqb lowerStage "development" ||
  String.eqb lowerStage "feature" ||
  startsWith lowerStage "feature-".

Definition constructor {World} (st : State World) : gmap string Hook * State World :=
  let stage := stage (descriptor st) in
  let isDev := _isDevelopmentStage stage in
  if isDev then
    (list_to_map
       [("before:package:initialize", removeReservedConcurrencyFromSLS);
        ("after:deploy:deploy", removeReservedConcurrencyFromAws);
        ("after:deploy:function:deploy", removeReservedConcurrencyFromAws)],
     log INFO (DevelopmentStageDetected stage) st)
  else (∅, log INFO (ProductionStageDetected stage) st).

(** The [forEach] of [_removeReservedConcurrencyFromSLS]. *)
Fixpoint forEach_entry (entries : Functions) (modifiedCount : nat) : Functions * nat :=
  match entries with
  | [] => ([], modifiedCount)
  | (name, config) :: rest =>
      match config !! "reservedConcurrency" with
      | Some _ =>
          let '(rest', n) := forEach_entry rest (S modifiedCount) in
          ((name, delete "reservedConcurrency" config) :: rest', n)
      | None =>
          let '(rest', n) := forEach_entry rest modifiedCount in
          ((name, config) :: rest', n)
      end
  end.

Definition _removeReservedConcurrencyFromSLS {World} (st : State World)
    : Completion unit * State World :=
  _measureExecutionTime "Remove reserved concurrency from Serverless config"
    (fun st =>
       let '(fs', modifiedCount) :=
         forEach_entry (default [] (functions (descriptor st))) 0 in
       let st1 := match functions (descriptor st) with
                  | Some _ => set_functions fs' st
                  | None => st
                  end in
       (Return tt,
        if (0 <? modifiedCount)%nat
        then log INFO (ModifiedFunctions modifiedCount) st1
        else log INFO NoFunctionsInConfig st1)) st.

(** The [for ... of] loop of [_removeReservedConcurrencyFromAws]: one
    function after the other, each inside its own [try]. *)
Section LegacyRemote.
Context {World : Type}.
Variable request : Method → string → World → Response * World.

Fixpoint for_of_entries (entries : Functions) (modifiedCount errorCount : nat)
    (st : State World) : nat * nat * State World :=
  match entries with
  | [] => (modifiedCount, errorCount, st)
  | (name, _) :: rest =>
      let functionName := _getFunctionName name st in
      if includes functionName "warmUp" then
        for_of_entries rest modifiedCount errorCount
          (log INFO (SkippingWarmUp functionName) st)
      else
        let '(config, st1) :=
          settle_request request getFunctionConfiguration functionName st in
        match config with
        | Rejected message =>
            for_of_entries rest modifiedCount (S errorCount)
              (log ERROR (ErrorRemovingFromAws name message) st1)
        | Fulfilled (Some _) =>
            let '(r, st2) :=
              settle_request request deleteFunctionConcurrency functionName
                (log INFO (RemovingFromAws functionName) st1) in
            match r with
            | Rejected message =>
                for_of_entries rest modifiedCount (S errorCount)
                  (log ERROR (ErrorRemovingFromAws name message) st2)
            | Fulfilled _ => for_of_entries rest (S modifiedCount) errorCount st2
            end
        | Fulfilled None => for_of_entries rest modifiedCount errorCount st1
        end
  end.

Definition _removeReservedConcurrencyFromAws (st : State World)
    : Completion unit * State World :=
  _measureExecutionTime "Remove reserved concurrency from AWS"
    (fun st =>
       let '(modifiedCount, errorCount, st1) :=
         for_of_entries (default [] (functions (descriptor st))) 0 0 st in
       let st2 :=
         if (0 <? modifiedCount)%nat
         then log INFO (RemovedFromAwsCount modifiedCount) st1
         else if (errorCount =? 0)%nat then log INFO NoFunctionsInAws st1
         else st1 in
       (Return tt,
        if (0 <? errorCount)%nat
        then log ERROR (FailedToRemoveCount errorCount) st2
        else st2)) st.

End LegacyRemote.

End Legacy.

(** ** Notions used in the statements *)

(** The field is there: the property read is not [undefined]. Truthiness
    plays no part, a zero or a null is there as well. *)
Definition has_reservedConcurrency (config : FunctionConfig) : Prop :=
  is_Some (config !! "reservedConcurrency").

Definition stripped (e : string * FunctionConfig) : string * FunctionConfig :=
  (e.1, delete "reservedConcurrency" e.2).

Definition spec_example_functions : Functions :=
  [("a", {["reservedConcurrency" := JsNumber 5]});
   ("b", ∅);
   ("c", {["reservedConcurrency" := JsNumber 0]})].

(** Kinds of settled requests. *)
Definition rejected (r : Request) : bool :=
  match response r with Rejected _ => true | Fulfilled _ => false end.

Definition deletion_fulfilled (r : Request) : bool :=
  match method r, response r with
  | deleteFunctionConcurrency, Fulfilled _ => true
  | _, _ => false
  end.

Definition found_without (r : Request) : bool :=
  match method r, response r with
  | getFunctionConfiguration, Fulfilled None => true
  | _, _ => false
  end.

Definition count {A} (p : A → bool) (l : list A) : nat :=
  sum_list_with (λ x, if p x then 1 else 0) l.

(** What a task has contributed so far: a modification, an error, or
    neither of the two (it has returned without either). *)
Definition modified_by (t : Task) : nat := modifiedCount (result_of t).
Definition errored_by (t : Task) : nat := errorCount (result_of t).
Definition neither_by (t : Task) : nat :=
  match t with
  | Returned r =>
      if (modifiedCount r =? 0)%nat && (errorCount r =? 0)%nat then 1 else 0
  | Suspended _ _ => 0
  end.

Definition awaited (a : Awaiting) : string :=
  match a with
  | AwaitingConfiguration awsFunctionName => awsFunctionName
  | AwaitingDeletion awsFunctionName => awsFunctionName
  end.

Definition task_ok (t : Task) : Prop :=
  match t with
  | Returned r => (modifiedCount r + errorCount r ≤ 1)%nat
  | Suspended _ a => _shouldSkipFunction (awaited a) = false
  end.

(** Consecutive batches of a list, [size] elements each, the last one
    possibly shorter. *)
Fixpoint chunks {A} (fuel size : nat) (l : list A) : list (list A) :=
  match fuel with
  | O => []
  | S fuel' =>
      match l with
      | [] => []
      | _ :: _ => take size l :: chunks fuel' size (drop size l)
      end
  end.

Definition consecutive_batches {A} (size : nat) (l : list A) : list (list A) :=
  chunks (length l) size l.

Section Batches.
Context {World : Type}.
Variable request : Method → string → World → Response * World.

(** The batches run one after the other, each one to the end. *)
Fixpoint run_batches (batches : list Functions) (schedules : list (list nat))
    (acc : ProcessingResult) (st : State World) : ProcessingResult * State World :=
  match batches with
  | [] => (acc, st)
  | batch :: batches' =>
      let '(ts, st1) := start_batch batch st in
      let '(batchResults, st2) := Promise_all request (hd [] schedules) ts st1 in
      run_batches batches' (tl schedules) (add_results acc batchResults) st2
  end.

End Batches.

Section Invariants.
Context {World : Type}.
Implicit Types (st : State World) (t : Task) (ts : list Task) (batch : Functions).

(** The entry resolves to an identifier that carries the warm-up marker. *)
Definition skips st (e : string * FunctionConfig) : bool :=
  _shouldSkipFunction (_getFunctionName e.1 st).

(** What holds of a batch while it runs, from the state [st0] it started in. *)
Definition batch_inv st0 batch ts st : Prop :=
  descriptor st = descriptor st0
  ∧ length ts = length batch
  ∧ Forall task_ok ts
  ∧ ∃ new,
      requests st = requests st0 ++ new
      ∧ Forall (λ r, _shouldSkipFunction (FunctionName r) = false) new
      ∧ count deletion_fulfilled new = sum_list_with modified_by ts
      ∧ count rejected new = sum_list_with errored_by ts
      ∧ count found_without new + count (skips st0) batch = sum_list_with neither_by ts
      ∧ ∀ e, e ∈ batch → skips st0 e = false →
          (∃ fn, Suspended fn (AwaitingConfiguration (_getFunctionName e.1 st0)) ∈ ts)
          ∨ (∃ r, r ∈ new ∧ method r = getFunctionConfiguration
                  ∧ FunctionName r = _getFunctionName e.1 st0).

(** What holds between the batches of a run that started in [st0]. *)
Definition run_inv st0 (done : Functions) (acc : ProcessingResult) st : Prop :=
  descriptor st = descriptor st0
  ∧ ∃ new,
      requests st = requests st0 ++ new
      ∧ Forall (λ r, _shouldSkipFunction (FunctionName r) = false) new
      ∧ modifiedCount acc = count deletion_fulfilled new
      ∧ errorCount acc = count rejected new
      ∧ modifiedCount acc + errorCount acc
        + (count (skips st0) done + count found_without new) = length done
      ∧ ∀ e, e ∈ done → skips st0 e = false →
          ∃ r, r ∈ new ∧ method r = getFunctionConfiguration
               ∧ FunctionName r = _getFunctionName e.1 st0.

(** What holds of a batch all of whose tasks returned at once. *)
Definition idle_inv (q : list Request) (w : World) (d : Serverless) ts st : Prop :=
  Forall (λ t, t = Returned {| modifiedCount := 0; errorCount := 0 |}) ts
  ∧ requests st = q ∧ remote st = w ∧ descriptor st = d.

End Invariants.

(** ** A provider to run the plugin against

    The deployed functions, each with its reserved concurrency when it has
    one, and the number of upcoming requests that are rejected before the
    service answers again (throttling, a network outage). A request that
    names no deployed function is rejected. *)
Record Lambda := {
  deployed : gmap string (option Z);
  outage : nat;
}.

Definition lambda_request (m : Method) (name : string) (w : Lambda) : Response * Lambda :=
  match outage w with
  | S n => (Rejected "Rate exceeded", {| deployed := deployed w; outage := n |})
  | O =>
      match deployed w !! name with
      | None => (Rejected "Function not found", w)
      | Some c =>
          match m with
          | getFunctionConfiguration => (Fulfilled c, w)
          | deleteFunctionConcurrency =>
              (Fulfilled None,
               {| deployed := <[name := None]> (deployed w); outage := 0 |})
          end
      end
  end.

Definition initial (d : Serverless) (w : Lambda) : State Lambda :=
  {| descriptor := d; remote := w; requests := []; logged := [] |}.

Definition hello_service (stage : string) : Serverless :=
  {| service := "svc"; stage := stage;
     functions := Some [("hello", {["reservedConcurrency" := JsNumber 5]})] |}.

Definition seven_functions : Functions :=
  (λ name, (name, ∅)) <$> ["f1"; "f2"; "f3"; "f4"; "f5"; "f6"; "f7"].

(** Seven deployed functions but the third, all with reserved concurrency. *)
Definition six_deployed : Lambda :=
  {| deployed := list_to_map
       ((λ name, ("svc-dev-" +:+ name, Some 3%Z)) <$> ["f1"; "f2"; "f4"; "f5"; "f6"; "f7"]);
     outage := 0 |}.

Definition warm_functions : Functions :=
  [("warmUpPlugin", ∅); ("hello", {["reservedConcurrency" := JsNumber 5]})].

(** Both functions deployed, both with reserved concurrency. *)
Definition warm_deployed (stage : string) : Lambda :=
  {| deployed := list_to_map
       [("svc-" +:+ stage +:+ "-warmUpPlugin", Some 1%Z);
        ("svc-" +:+ stage +:+ "-hello", Some 5%Z)];
     outage := 0 |}.

Definition warm_state (stage : string) : State Lambda :=
  initial {| service := "svc"; stage := stage; functions := Some warm_functions |}
          (warm_deployed stage).

(** ** What is asked of a provider for a second run to find nothing

    [reserved w id] tells whether the remote world [w] holds a reserved
    concurrency for the function [id]. A fetch that is fulfilled reports it
    as it is, no request ever sets one, and a deletion that is fulfilled
    leaves none for its function. Requests may be rejected at any time. *)
Record ProviderLaws {World : Type}
    (request : Method → string → World → Response * World)
    (reserved : World → string → bool) : Prop := {
  fetch_is_faithful : ∀ id w,
    match (request getFunctionConfiguration id w).1 with
    | Fulfilled (Some _) => reserved w id = true
    | Fulfilled None => reserved w id = false
    | Rejected _ => True
    end;
  nothing_reserves : ∀ m id' w id,
    reserved w id = false → reserved (request m id' w).2 id = false;
  deletion_removes : ∀ id w v,
    (request deleteFunctionConcurrency id w).1 = Fulfilled v →
    reserved (request deleteFunctionConcurrency id w).2 id = false;
}.

Definition lambda_reserved (w : Lambda) (id : string) : bool :=
  match deployed w !! id with
  | Some (Some _) => true
  | _ => false
  end.

Section CleanInvariants.
Context {World : Type}.
Variable reserved : World → string → bool.
Implicit Types (st : State World) (t : Task) (w : World).

(** The entry needs no deletion: it is skipped, or nothing is reserved for it. *)
Definition settled st0 w (e : string * FunctionConfig) : Prop :=
  skips st0 e = true ∨ reserved w (_getFunctionName e.1 st0) = false.

(** In a run without errors, a task that has returned leaves its entry settled. *)
Definition leaves_settled st0 w (e : string * FunctionConfig) t : Prop :=
  match t with
  | Returned r => errorCount r = 0 → settled st0 w e
  | Suspended _ a => awaited a = _getFunctionName e.1 st0
  end.

(** A task that will modify nothing: it waits for the fetch of a function
    for which nothing is reserved, or it has returned without a deletion. *)
Definition modifies_nothing w t : Prop :=
  match t with
  | Returned r => modifiedCount r = 0
  | Suspended _ (AwaitingConfiguration awsFunctionName) =>
      reserved w awsFunctionName = false
  | Suspended _ (AwaitingDeletion _) => False
  end.

Definition first_run_inv st0 (batch : Functions) (ts : list Task) st : Prop :=
  descriptor st = descriptor st0
  ∧ Forall2 (leaves_settled st0 (remote st)) batch ts.

Definition second_run_inv (ts : list Task) st : Prop :=
  Forall (modifies_nothing (remote st)) ts.

End CleanInvariants.

(** ** Notions for the further properties *)

Definition before_extension_points : list string :=
  ["before:deploy:deploy"; "before:deploy:function:deploy";
   "before:package:createDeploymentArtifacts";
   "before:aws:deploy:deploy:createStack"].

Definition fetch (r : Request) : bool :=
  match method r with getFunctionConfiguration => true | _ => false end.

Definition deletion (r : Request) : bool :=
  match method r with deleteFunctionConcurrency => true | _ => false end.

(** A fetch that reported a reserved concurrency. *)
Definition fetched_with (r : Request) : bool :=
  match method r, response r with
  | getFunctionConfiguration, Fulfilled (Some _) => true
  | _, _ => false
  end.

Definition pending_fetch (t : Task) : bool :=
  match t with Suspended _ (AwaitingConfiguration _) => true | _ => false end.

Definition pending_deletion (t : Task) : bool :=
  match t with Suspended _ (AwaitingDeletion _) => true | _ => false end.

(** Every deletion comes after a fetch of the same function that reported a
    reserved concurrency. *)
Definition deletions_follow_fetches (l : list Request) : Prop :=
  ∀ before r after,
    l = before ++ r :: after → deletion r = true →
    ∃ r', r' ∈ before ∧ fetched_with r' = true ∧ FunctionName r' = FunctionName r.

Section AuditInvariants.
Context {World : Type}.
Implicit Types (st : State World) (t : Task) (ts : list Task) (batch : Functions).

(** The request names a function of the list, by its remote identifier. *)
Definition targets st0 (fs : Functions) (r : Request) : Prop :=
  ∃ e, e ∈ fs ∧ FunctionName r = _getFunctionName e.1 st0.

(** An error line of the log is the error of a function of the list, under
    its logical name. *)
Definition names_function (fs : Functions) (entry : LogEntry) : Prop :=
  is_error entry = true →
  ∃ e message, e ∈ fs ∧ entry = (ERROR, ErrorRemovingFromAws e.1 message).

Definition task_of st0 (fs : Functions) t : Prop :=
  match t with
  | Returned _ => True
  | Suspended fn a => ∃ e, e ∈ fs ∧ fn = e.1 ∧ awaited a = _getFunctionName e.1 st0
  end.

Definition audit_inv st0 batch ts st : Prop :=
  descriptor st = descriptor st0
  ∧ Forall (task_of st0 batch) ts
  ∧ ∃ new newlog,
      requests st = requests st0 ++ new
      ∧ logged st = logged st0 ++ newlog
      ∧ Forall (targets st0 batch) new
      ∧ Forall (names_function batch) newlog
      ∧ deletions_follow_fetches new
      ∧ (∀ fn aws, Suspended fn (AwaitingDeletion aws) ∈ ts →
           ∃ r', r' ∈ new ∧ fetched_with r' = true ∧ FunctionName r' = aws)
      ∧ count fetch new + count pending_fetch ts
        = count (λ e, negb (skips st0 e)) batch
      ∧ count deletion new + count pending_deletion ts = count fetched_with new
      ∧ count is_error newlog = sum_list_with errored_by ts.

Definition audit_run_inv st0 (done : Functions) (acc : ProcessingResult) st : Prop :=
  descriptor st = descriptor st0
  ∧ ∃ new newlog,
      requests st = requests st0 ++ new
      ∧ logged st = logged st0 ++ newlog
      ∧ Forall (targets st0 done) new
      ∧ Forall (names_function done) newlog
      ∧ deletions_follow_fetches new
      ∧ count fetch new = count (λ e, negb (skips st0 e)) done
      ∧ count deletion new = count fetched_with new
      ∧ count is_error newlog = errorCount acc.

(** The two states differ in their logs at most. *)
Definition same_but_log st st' : Prop :=
  descriptor st = descriptor st' ∧ remote st = remote st'
  ∧ requests st = requests st'.

End AuditInvariants.

Section FetchOnly.
Context {World : Type}.
Variable reserved : World → string → bool.
Implicit Types (st : State World) (ts : list Task).

(** A batch over settled functions: no task will modify anything and the
    requests made so far are fetches. *)
Definition fetch_only_inv st0 ts st : Prop :=
  second_run_inv reserved ts st
  ∧ ∃ new, requests st = requests st0 ++ new
           ∧ Forall (λ r, method r = getFunctionConfiguration) new.

Definition fetch_only_run_inv st0 (base : list Request) (entries : Functions) st
    : Prop :=
  descriptor st = descriptor st0
  ∧ (∀ e, e ∈ entries → settled reserved st0 (remote st) e)
  ∧ ∃ new, requests st = base ++ new
           ∧ Forall (λ r, method r = getFunctionConfiguration) new.

End FetchOnly.

(** * Properties *)

(** ** Strings *)

Lemma app_nil_string (s : string) : "" +:+ s = s.
Proof. reflexivity. Qed.

Lemma app_String (c : ascii) (a b : string) : String c a +:+ b = String c (a +:+ b).
Proof. reflexivity. Qed.

Lemma includes_nil (p : string) : includes "" p = String.prefix p "".
Proof. unfold includes. apply orb_false_r. Qed.

Lemma includes_String (c : ascii) (s p : string) :
  includes (String c s) p = String.prefix p (String c s) || includes s p.
Proof. reflexivity. Qed.

Lemma prefix_app (p s : string) :
  String.prefix p s = true ↔ ∃ rest, s = p +:+ rest.
Proof.
  revert s. induction p as [|c p IH]; intros s.
  - split; [intros _; by exists s | by destruct s].
  - destruct s as [|d s]; simpl.
    + split; [done | intros [rest H]; discriminate].
    + destruct (Ascii.ascii_dec c d) as [->|Hne].
      * rewrite IH. split; intros [rest H]; exists rest;
          rewrite app_String in *; congruence.
      * split; [done | intros [rest H]; rewrite app_String in H; congruence].
Qed.

Lemma string_app_assoc (a b c : string) : (a +:+ b) +:+ c = a +:+ (b +:+ c).
Proof.
  induction a as [|x a IH]; [done |]. by rewrite !app_String, IH.
Qed.

Lemma includes_app (s p : string) :
  includes s p = true ↔ ∃ before after, s = before +:+ p +:+ after.
Proof.
  induction s as [|c s IH].
  - rewrite includes_nil, prefix_app. split.
    + intros [rest H]. by exists "", rest.
    + intros [before [after H]]. destruct before; [by exists after | discriminate].
  - rewrite includes_String, orb_true_iff, IH, prefix_app. split.
    + intros [[rest H] | [before [after H]]].
      * by exists "", rest.
      * exists (String c before), after. by rewrite app_String, H.
    + intros [before [after H]]. destruct before as [|d before].
      * left. by exists after.
      * right. exists before, after. rewrite app_String in H. congruence.
Qed.

Lemma includes_app_l (a b p : string) :
  includes a p = true → includes (a +:+ b) p = true.
Proof.
  rewrite !includes_app. intros [x [y ->]]. exists x, (y +:+ b).
  by rewrite !string_app_assoc.
Qed.

Lemma includes_app_r (a b p : string) :
  includes b p = true → includes (a +:+ b) p = true.
Proof.
  rewrite !includes_app. intros [x [y ->]]. exists (a +:+ x), y.
  by rewrite !string_app_assoc.
Qed.

Lemma startsWith_app (s p : string) :
  startsWith s p = true ↔ ∃ rest, s = p +:+ rest.
Proof. apply prefix_app. Qed.

(** ** Stage classification *)

Lemma eqb_string_iff (a b : string) : String.eqb a b = true ↔ a = b.
Proof. apply String.eqb_eq. Qed.

Example classify_Feature_XYZ : _isDevelopmentStage "Feature-XYZ" = true.
Proof. reflexivity. Qed.

Example classify_production : _isDevelopmentStage "production" = false.
Proof. reflexivity. Qed.

Example classify_DEV : _isDevelopmentStage "DEV" = true.
Proof. reflexivity. Qed.

Example classify_features : _isDevelopmentStage "features" = false.
Proof. reflexivity. Qed.

Lemma isDevelopmentStage_true_iff (stage : string) :
  _isDevelopmentStage stage = true ↔
    toLowerCase stage = "dev" ∨ toLowerCase stage = "development" ∨
    toLowerCase stage = "feature" ∨
    ∃ rest, toLowerCase stage = "feature-" +:+ rest.
Proof.
  unfold _isDevelopmentStage, DEV_STAGES. cbv zeta.
  rewrite orb_true_iff, bool_decide_eq_true, startsWith_app.
  rewrite !elem_of_cons, elem_of_nil. tauto.
Qed.

Lemma legacy_isDevelopmentStage_true_iff (stage : string) :
  Legacy._isDevelopmentStage stage = true ↔
    toLowerCase stage = "dev" ∨ toLowerCase stage = "development" ∨
    toLowerCase stage = "feature" ∨
    ∃ rest, toLowerCase stage = "feature-" +:+ rest.
Proof.
  unfold Legacy._isDevelopmentStage. cbv zeta.
  rewrite !orb_true_iff, !eqb_string_iff, startsWith_app. tauto.
Qed.

Lemma legacy_isDevelopmentStage_eq (stage : string) :
  Legacy._isDevelopmentStage stage = _isDevelopmentStage stage.
Proof.
  apply Bool.eq_iff_eq_true.
  by rewrite legacy_isDevelopmentStage_true_iff, isDevelopmentStage_true_iff.
Qed.

(** C1. A stage is development-like exactly when its lower-cased name is
    "dev", "development" or "feature", or begins with "feature-". Both
    revisions of the classifier compute this, on every string. *)
Theorem isDevelopmentStage_iff (stage : string) :
  (_isDevelopmentStage stage = true ↔
     toLowerCase stage = "dev" ∨ toLowerCase stage = "development" ∨
     toLowerCase stage = "feature" ∨
     ∃ rest, toLowerCase stage = "feature-" +:+ rest)
  ∧ (Legacy._isDevelopmentStage stage = true ↔
     toLowerCase stage = "dev" ∨ toLowerCase stage = "development" ∨
     toLowerCase stage = "feature" ∨
     ∃ rest, toLowerCase stage = "feature-" +:+ rest).
Proof.
  split; [apply isDevelopmentStage_true_iff | apply legacy_isDevelopmentStage_true_iff].
Qed.

(** ** Descriptor mutation *)

Section DescriptorFacts.
Context {World : Type}.
Implicit Types (st : State World) (fs : Functions).

Lemma forEach_entry_spec fs n st :
  forEach_entry fs n st =
    (stripped <$> fs,
     n + length (filter (λ e, has_reservedConcurrency e.2) fs),
     snd (forEach_entry fs n st))
  ∧ descriptor (snd (forEach_entry fs n st)) = descriptor st
  ∧ remote (snd (forEach_entry fs n st)) = remote st
  ∧ requests (snd (forEach_entry fs n st)) = requests st.
Proof.
  revert n st. induction fs as [|[name config] fs IH]; intros n st.
  - simpl. rewrite Nat.add_0_r. done.
  - simpl. unfold _removeConcurrencyFromFunction.
    destruct (config !! "reservedConcurrency") as [v|] eqn:E.
    + destruct (IH (S n) (log INFO (RemovingFromConfig name) st))
        as (Heq & Hd & Hr & Hq).
      rewrite Heq. simpl. rewrite Hd, Hr, Hq.
      rewrite filter_cons_True by (unfold has_reservedConcurrency; simpl; eauto).
      simpl. repeat split. f_equal. f_equal. lia.
    + destruct (IH n st) as (Heq & Hd & Hr & Hq).
      rewrite Heq. simpl. rewrite Hd, Hr, Hq.
      rewrite filter_cons_False
        by (unfold has_reservedConcurrency; simpl; rewrite E; by intros [? ?]).
      repeat split. unfold stripped. simpl. by rewrite delete_id.
Qed.

Lemma legacy_forEach_entry_spec fs n :
  Legacy.forEach_entry fs n =
    (stripped <$> fs, n + length (filter (λ e, has_reservedConcurrency e.2) fs)).
Proof.
  revert n. induction fs as [|[name config] fs IH]; intros n.
  - simpl. by rewrite Nat.add_0_r.
  - simpl. destruct (config !! "reservedConcurrency") as [v|] eqn:E.
    + rewrite IH.
      rewrite filter_cons_True by (unfold has_reservedConcurrency; simpl; eauto).
      simpl. f_equal. lia.
    + rewrite IH.
      rewrite filter_cons_False
        by (unfold has_reservedConcurrency; simpl; rewrite E; by intros [? ?]).
      unfold stripped. simpl. by rewrite delete_id.
Qed.

Lemma stripped_fmap_Forall2 fs :
  Forall2 (λ e e', e'.1 = e.1
                   ∧ ¬ has_reservedConcurrency e'.2
                   ∧ (¬ has_reservedConcurrency e.2 → e'.2 = e.2)
                   ∧ ∀ k, k ≠ "reservedConcurrency" → e'.2 !! k = e.2 !! k)
          fs (stripped <$> fs).
Proof.
  induction fs as [|[name config] fs IH]; simpl; constructor; [|done].
  unfold stripped, has_reservedConcurrency; simpl. repeat split.
  - rewrite lookup_delete_eq. by intros [? ?].
  - intros H. apply delete_id. by apply eq_None_not_Some.
  - intros k Hk. by rewrite lookup_delete_ne.
Qed.

End DescriptorFacts.

Example spec_example_mutation :
  let '(fs', result, _) :=
    _processServerlessConfigFunctions spec_example_functions
      {| descriptor := {| service := "svc"; stage := "dev"; functions := None |};
         remote := tt; requests := []; logged := [] |} in
  fs' = [("a", ∅); ("b", ∅); ("c", ∅)] ∧ modifiedCount result = 2.
Proof. vm_compute. done. Qed.

(** C4. Descriptor mutation removes the reserved-concurrency field from the
    entries that have it, whatever its value, leaves the entries without it
    as they are, and reports the number of entries that had it. The earlier
    revision of the walk does the same. *)
Theorem descriptor_mutation_counts {World} (fs : Functions) (st : State World) :
  let '(fs', result, _) := _processServerlessConfigFunctions fs st in
  modifiedCount result = length (filter (λ e, has_reservedConcurrency e.2) fs)
  ∧ Forall2 (λ e e', e'.1 = e.1
                     ∧ ¬ has_reservedConcurrency e'.2
                     ∧ (¬ has_reservedConcurrency e.2 → e'.2 = e.2)) fs fs'
  ∧ Legacy.forEach_entry fs 0 = (fs', modifiedCount result).
Proof.
  unfold _processServerlessConfigFunctions.
  destruct (forEach_entry_spec fs 0 st) as (Heq & _).
  rewrite Heq. simpl. split; [done |]. split.
  - eapply Forall2_impl; [apply stripped_fmap_Forall2 |].
    intros e e' (H1 & H2 & H3 & _). done.
  - apply legacy_forEach_entry_spec.
Qed.

(** C9. The descriptor-mutation hook changes nothing but the
    reserved-concurrency field: the entries of the mapping keep their names
    and their order, every other field of every entry reads as before, the
    rest of the descriptor and the remote side are not touched. The earlier
    revision of the hook leaves the same descriptor. *)
Theorem descriptor_mutation_frame {World} (st : State World) :
  let st' := snd (_removeReservedConcurrencyFromSLS st) in
  fst (_removeReservedConcurrencyFromSLS st) = Return tt
  ∧ service (descriptor st') = service (descriptor st)
  ∧ stage (descriptor st') = stage (descriptor st)
  ∧ option_Forall2
      (Forall2 (λ e e', e'.1 = e.1
                        ∧ ∀ k, k ≠ "reservedConcurrency" → e'.2 !! k = e.2 !! k))
      (functions (descriptor st)) (functions (descriptor st'))
  ∧ remote st' = remote st
  ∧ requests st' = requests st
  ∧ descriptor (snd (Legacy._removeReservedConcurrencyFromSLS st)) = descriptor st'.
Proof.
  unfold _removeReservedConcurrencyFromSLS, Legacy._removeReservedConcurrencyFromSLS,
    _measureExecutionTime, _processServerlessConfigFunctions.
  set (st0 := log INFO (Starting _) st).
  destruct (functions (descriptor st0)) as [fs|] eqn:Efs.
  - destruct (forEach_entry_spec fs 0 st0) as (Heq & Hd & Hr & Hq).
    rewrite Heq, legacy_forEach_entry_spec.
    assert (Hst : functions (descriptor st) = Some fs) by exact Efs.
    rewrite Hst. cbn zeta. simpl.
    unfold _logServerlessConfigResult. simpl.
    repeat (destruct (0 <? _)%nat); simpl; rewrite ?Hd, ?Hr, ?Hq; simpl;
      (repeat split; try done; constructor;
       eapply Forall2_impl; [apply stripped_fmap_Forall2 |];
       intros e e' (H1 & _ & _ & H4); done).
  - assert (Hst : functions (descriptor st) = None) by exact Efs.
    rewrite Hst. simpl. rewrite Hst. repeat split; try done. constructor.
Qed.

(** ** Remote reconciliation: how a batch runs *)

Lemma count_app {A} (p : A → bool) (l k : list A) :
  count p (l ++ k) = count p l + count p k.
Proof. apply sum_list_with_app. Qed.

Lemma count_ext {A} (p q : A → bool) (l : list A) :
  (∀ x, p x = q x) → count p l = count q l.
Proof.
  intros H. unfold count. induction l as [|x l IH]; simpl; [done|].
  by rewrite H, IH.
Qed.

Lemma count_le_length {A} (p : A → bool) (l : list A) : count p l ≤ length l.
Proof.
  unfold count. induction l as [|x l IH]; simpl; [done|]. destruct (p x); lia.
Qed.

Lemma count_snoc {A} (p : A → bool) (l : list A) (x : A) :
  count p (l ++ [x]) = count p l + (if p x then 1 else 0).
Proof. rewrite count_app. unfold count at 2. simpl. lia. Qed.

Section BatchFacts.
Context {World : Type}.
Variable request : Method → string → World → Response * World.
Implicit Types (st : State World) (t : Task) (ts : list Task).

Lemma resume_Returned r st : resume request (Returned r) st = (Returned r, st).
Proof. reflexivity. Qed.

(** After two requests at most a call has returned. *)
Lemma resume_twice t st :
  ∃ r, (resume request (resume request t st).1 (resume request t st).2).1 = Returned r.
Proof.
  destruct t as [r|fn [aws|aws]]; simpl; [by eexists | |].
  - unfold settle_request.
    destruct (request getFunctionConfiguration aws (remote st)) as [[msg|[n|]] w];
      simpl; try by eexists.
    unfold settle_request; simpl.
    destruct (request deleteFunctionConcurrency aws w) as [[msg|v] w']; simpl;
      by eexists.
  - unfold settle_request.
    destruct (request deleteFunctionConcurrency aws (remote st)) as [[msg|v] w];
      simpl; by eexists.
Qed.

(** *** Invariants of a batch

    A property of the tasks and the state that every single resumption
    keeps is kept by the whole of [Promise.all], whatever the schedule; at
    the end every task has returned. *)
Section Invariant.
Variable P : list Task → State World → Prop.
Hypothesis P_resume : ∀ pre t post st,
  P (pre ++ t :: post) st →
  P (pre ++ (resume request t st).1 :: post) (resume request t st).2.

Lemma advance_invariant i ts st :
  P ts st → P (advance request i ts st).1 (advance request i ts st).2.
Proof.
  intros HP. unfold advance. destruct (ts !! i) as [t|] eqn:E; [|done].
  destruct (resume request t st) as [t' st'] eqn:R. simpl.
  rewrite insert_take_drop by (by eapply lookup_lt_Some).
  rewrite <- (take_drop_middle ts i t E) in HP.
  apply P_resume in HP. by rewrite R in HP.
Qed.

Lemma interleave_invariant schedule ts st :
  P ts st →
  P (interleave request schedule ts st).1 (interleave request schedule ts st).2.
Proof.
  revert ts st. induction schedule as [|i schedule IH]; intros ts st HP; [done|].
  simpl. pose proof (advance_invariant i ts st HP) as H.
  destruct (advance request i ts st) as [ts' st']. by apply IH.
Qed.

Lemma drain_invariant pre ts st :
  P (pre ++ ts) st →
  P (pre ++ (Returned <$> (drain request ts st).1)) (drain request ts st).2
  ∧ length (drain request ts st).1 = length ts.
Proof.
  revert pre st. induction ts as [|t ts IH]; intros pre st HP; [done|].
  simpl. apply P_resume in HP.
  destruct (resume_twice t st) as [r Hr].
  destruct (resume request t st) as [t1 st1]. simpl in *.
  apply P_resume in HP.
  destruct (resume request t1 st1) as [t2 st2]. simpl in *. subst t2.
  specialize (IH (pre ++ [Returned r])%list st2).
  rewrite <- app_assoc in IH. simpl in IH. specialize (IH HP).
  destruct (drain request ts st2) as [rs st3]. simpl in *.
  rewrite <- app_assoc in IH. simpl in IH. destruct IH as [IH1 IH2].
  split; [done | by rewrite IH2].
Qed.

Lemma Promise_all_invariant schedule ts st :
  P ts st →
  P (Returned <$> (Promise_all request schedule ts st).1)
    (Promise_all request schedule ts st).2.
Proof.
  intros HP. unfold Promise_all.
  pose proof (interleave_invariant schedule ts st HP) as H.
  destruct (interleave request schedule ts st) as [ts' st'].
  by apply (drain_invariant []).
Qed.

End Invariant.

End BatchFacts.

(** ** Remote reconciliation: the ledger of a batch *)

Section Ledger.
Context {World : Type}.
Variable request : Method → string → World → Response * World.
Implicit Types (st : State World) (t : Task) (ts : list Task) (batch : Functions).

Lemma start_batch_spec batch st :
  descriptor (start_batch batch st).2 = descriptor st
  ∧ requests (start_batch batch st).2 = requests st
  ∧ remote (start_batch batch st).2 = remote st
  ∧ (start_batch batch st).1 =
      (λ e, if skips st e
            then Returned {| modifiedCount := 0; errorCount := 0 |}
            else Suspended e.1 (AwaitingConfiguration (_getFunctionName e.1 st)))
      <$> batch.
Proof.
  revert st. induction batch as [|[name config] batch IH]; intros st; [done|].
  simpl. unfold _processAwsFunction, skips. simpl.
  destruct (_shouldSkipFunction (_getFunctionName name st)) eqn:E.
  - destruct (IH (log INFO (SkippingWarmUp (_getFunctionName name st)) st))
      as (Hd & Hq & Hr & Hts).
    destruct (start_batch batch _) as [ts st']. simpl in *.
    rewrite Hd, Hq, Hr, Hts. repeat split; done.
  - destruct (IH st) as (Hd & Hq & Hr & Hts).
    destruct (start_batch batch st) as [ts st']. simpl in *.
    rewrite Hd, Hq, Hr, Hts. repeat split; done.
Qed.

Lemma batch_inv_start batch st :
  batch_inv st batch (start_batch batch st).1 (start_batch batch st).2.
Proof.
  destruct (start_batch_spec batch st) as (Hd & Hq & Hr & Hts).
  unfold batch_inv. rewrite Hts, Hd, Hq. split; [done|].
  split; [by rewrite length_fmap|]. split.
  { apply Forall_fmap, Forall_forall. intros e _. simpl.
    destruct (skips st e) eqn:E; simpl; [lia | exact E]. }
  exists []. rewrite app_nil_r. split; [done|]. split; [constructor|].
  clear Hd Hq Hr Hts.
  assert (Hsum : ∀ (f : Task → nat) (g : string * FunctionConfig → nat),
    (∀ e, f (if skips st e
             then Returned {| modifiedCount := 0; errorCount := 0 |}
             else Suspended e.1 (AwaitingConfiguration (_getFunctionName e.1 st)))
          = g e) →
    sum_list_with f
      ((λ e, if skips st e
             then Returned {| modifiedCount := 0; errorCount := 0 |}
             else Suspended e.1 (AwaitingConfiguration (_getFunctionName e.1 st)))
       <$> batch) = sum_list_with g batch).
  { intros f g Hfg. induction batch as [|e b IHb]; [done|].
    rewrite fmap_cons. cbn [sum_list_with]. by rewrite Hfg, IHb. }
  split; [|split; [|split]].
  - rewrite (Hsum modified_by (λ _, 0)); [|by intros e; destruct (skips st e)].
    clear. induction batch; simpl; done.
  - rewrite (Hsum errored_by (λ _, 0)); [|by intros e; destruct (skips st e)].
    clear. induction batch; simpl; done.
  - rewrite (Hsum neither_by (λ e, if skips st e then 1 else 0));
      [done | by intros e; destruct (skips st e)].
  - intros e He Hskip. left. exists e.1.
    apply list_elem_of_fmap. exists e. by rewrite Hskip.
Qed.

Lemma sum_list_with_middle {A} (f : A → nat) (pre post : list A) (x : A) :
  sum_list_with f (pre ++ x :: post)
  = sum_list_with f pre + f x + sum_list_with f post.
Proof. rewrite sum_list_with_app. simpl. lia. Qed.

Lemma task_ok_middle pre t t' post :
  Forall task_ok (pre ++ t :: post) → task_ok t' →
  Forall task_ok (pre ++ t' :: post).
Proof.
  rewrite !Forall_app, !Forall_cons. tauto.
Qed.

Lemma awaiting_middle pre t t' post (fn aws : string) :
  Suspended fn (AwaitingConfiguration aws) ∈ pre ++ t :: post →
  t = Suspended fn (AwaitingConfiguration aws)
  ∨ Suspended fn (AwaitingConfiguration aws) ∈ pre ++ t' :: post.
Proof.
  rewrite !elem_of_app, !elem_of_cons. intros [H|[H|H]]; auto.
Qed.

Lemma batch_inv_resume st0 batch pre t post st :
  batch_inv st0 batch (pre ++ t :: post) st →
  batch_inv st0 batch (pre ++ (resume request t st).1 :: post)
            (resume request t st).2.
Proof.
  intros (Hd & Hlen & Hok & new & Hq & Hns & Hm & He & Hn & Hf).
  assert (Hokt : task_ok t).
  { apply Forall_app in Hok as [_ Hok]. by apply Forall_cons in Hok as [Hok _]. }
  rewrite sum_list_with_middle in Hm, He, Hn.
  rewrite length_app in Hlen. simpl in Hlen.
  destruct t as [r|fn [aws|aws]].
  - simpl. unfold batch_inv. rewrite !sum_list_with_middle, length_app. simpl.
    split; [done|]. split; [done|]. split; [done|]. by exists new.
  - simpl in Hokt. simpl. unfold settle_request.
    destruct (request getFunctionConfiguration aws (remote st)) as [[msg|[n|]] w];
      simpl; unfold batch_inv; simpl;
      rewrite !sum_list_with_middle, length_app; simpl;
      (split; [done|]); (split; [done|]);
      (split; [eapply task_ok_middle; [exact Hok | simpl; first [lia | done]]|]);
      eexists; (split; [by rewrite Hq, <- app_assoc|]);
      rewrite Forall_app, !count_snoc; simpl;
      (split; [split; [done | by repeat constructor]|]);
      unfold modified_by, errored_by in *; simpl in *;
      (split; [lia|]); (split; [lia|]); (split; [lia|]);
      intros e Hin Hskip;
      (destruct (Hf e Hin Hskip) as [[fn' Hw]|(r & Hr & Hr1 & Hr2)];
       [|right; exists r; rewrite elem_of_app; by auto]);
      (eapply awaiting_middle in Hw as [Hw|Hw];
       [|left; exists fn'; exact Hw]);
      right; eexists; rewrite elem_of_app, list_elem_of_singleton;
      (split; [right; reflexivity|]); simpl; split; congruence.
  - simpl in Hokt. simpl. unfold settle_request.
    destruct (request deleteFunctionConcurrency aws (remote st)) as [[msg|v] w];
      simpl; unfold batch_inv; simpl;
      rewrite !sum_list_with_middle, length_app; simpl;
      (split; [done|]); (split; [done|]);
      (split; [eapply task_ok_middle; [exact Hok | simpl; first [lia | done]]|]);
      eexists; (split; [by rewrite Hq, <- app_assoc|]);
      rewrite Forall_app, !count_snoc; simpl;
      (split; [split; [done | by repeat constructor]|]);
      unfold modified_by, errored_by in *; simpl in *;
      (split; [lia|]); (split; [lia|]); (split; [lia|]);
      intros e Hin Hskip;
      (destruct (Hf e Hin Hskip) as [[fn' Hw]|(r & Hr & Hr1 & Hr2)];
       [|right; exists r; rewrite elem_of_app; by auto]);
      (eapply awaiting_middle in Hw as [Hw|Hw];
       [discriminate Hw | left; exists fn'; exact Hw]).
Qed.

Lemma sum_list_with_Returned (f : ProcessingResult → nat) (rs : list ProcessingResult) :
  sum_list_with (λ t, f (result_of t)) (Returned <$> rs) = sum_list_with f rs.
Proof. induction rs as [|r rs IH]; [done|]. rewrite fmap_cons. simpl. by rewrite IH. Qed.

Lemma returned_partition (rs : list ProcessingResult) :
  Forall task_ok (Returned <$> rs) →
  sum_list_with modifiedCount rs + sum_list_with errorCount rs
  + sum_list_with neither_by (Returned <$> rs) = length rs.
Proof.
  induction rs as [|[m e] rs IH]; [done|].
  rewrite fmap_cons, Forall_cons. intros [Hr Hrs]. specialize (IH Hrs).
  simpl in *. destruct m as [|m], e as [|e]; simpl; lia.
Qed.

Lemma skips_descriptor st st' e :
  descriptor st' = descriptor st → skips st' e = skips st e.
Proof. intros H. unfold skips, _getFunctionName. by rewrite H. Qed.

Lemma getFunctionName_descriptor st st' name :
  descriptor st' = descriptor st → _getFunctionName name st' = _getFunctionName name st.
Proof. intros H. unfold _getFunctionName. by rewrite H. Qed.

(** The ledger of one batch: what its run adds to the requests, and how
    the results of the batch count them. *)
Lemma batch_ledger batch schedule st :
  let out := Promise_all request schedule (start_batch batch st).1
                         (start_batch batch st).2 in
  descriptor out.2 = descriptor st
  ∧ length out.1 = length batch
  ∧ ∃ new,
      requests out.2 = requests st ++ new
      ∧ Forall (λ r, _shouldSkipFunction (FunctionName r) = false) new
      ∧ sum_list_with modifiedCount out.1 = count deletion_fulfilled new
      ∧ sum_list_with errorCount out.1 = count rejected new
      ∧ sum_list_with modifiedCount out.1 + sum_list_with errorCount out.1
        + (count (skips st) batch + count found_without new) = length batch
      ∧ ∀ e, e ∈ batch → skips st e = false →
          ∃ r, r ∈ new ∧ method r = getFunctionConfiguration
               ∧ FunctionName r = _getFunctionName e.1 st.
Proof.
  intros out.
  pose proof (Promise_all_invariant request (batch_inv st batch)
                (batch_inv_resume st batch) schedule _ _
                (batch_inv_start batch st)) as H.
  fold out in H.
  destruct H as (Hd & Hlen & Hok & new & Hq & Hns & Hm & He & Hn & Hf).
  rewrite length_fmap in Hlen.
  unfold modified_by in Hm. unfold errored_by in He.
  rewrite sum_list_with_Returned in Hm, He.
  pose proof (returned_partition _ Hok) as Hpart.
  split; [done|]. split; [done|]. exists new.
  repeat split; try done. { lia. }
  intros e Hin Hskip. destruct (Hf e Hin Hskip) as [[fn Hw]|Hr]; [|done].
  apply list_elem_of_fmap in Hw as (r & Hr & _). discriminate.
Qed.

Lemma add_results_modifiedCount acc rs :
  modifiedCount (add_results acc rs) = modifiedCount acc + sum_list_with modifiedCount rs.
Proof.
  revert acc. induction rs as [|r rs IH]; intros acc; simpl; [lia|].
  unfold add_results in *. simpl. rewrite IH. simpl. lia.
Qed.

Lemma add_results_errorCount acc rs :
  errorCount (add_results acc rs) = errorCount acc + sum_list_with errorCount rs.
Proof.
  revert acc. induction rs as [|r rs IH]; intros acc; simpl; [lia|].
  unfold add_results in *. simpl. rewrite IH. simpl. lia.
Qed.

(** *** Invariants of a run *)
Section RunInvariant.
Variable R : Functions → ProcessingResult → State World → Prop.
Hypothesis R_batch : ∀ done batch schedule acc st,
  R done acc st →
  R (done ++ batch)
    (add_results acc
       (Promise_all request schedule (start_batch batch st).1
                    (start_batch batch st).2).1)
    (Promise_all request schedule (start_batch batch st).1
                 (start_batch batch st).2).2.

Lemma run_batches_invariant batches schedules done acc st :
  R done acc st →
  R (done ++ mjoin batches)
    (run_batches request batches schedules acc st).1
    (run_batches request batches schedules acc st).2.
Proof.
  revert schedules done acc st.
  induction batches as [|batch batches IH]; intros schedules done acc st HR.
  - simpl. by rewrite app_nil_r.
  - simpl. apply (R_batch _ batch (hd [] schedules)) in HR.
    destruct (start_batch batch st) as [ts st1]. simpl in HR.
    destruct (Promise_all request (hd [] schedules) ts st1) as [rs st2].
    simpl in HR. rewrite app_assoc. by apply IH.
Qed.

End RunInvariant.

Lemma run_inv_batch st0 done batch schedule acc st :
  run_inv st0 done acc st →
  run_inv st0 (done ++ batch)
    (add_results acc
       (Promise_all request schedule (start_batch batch st).1
                    (start_batch batch st).2).1)
    (Promise_all request schedule (start_batch batch st).1
                 (start_batch batch st).2).2.
Proof.
  intros (Hd & new & Hq & Hns & Hm & He & Hn & Hf).
  destruct (batch_ledger batch schedule st)
    as (Hd' & Hlen & new' & Hq' & Hns' & Hm' & He' & Hn' & Hf').
  unfold run_inv. rewrite add_results_modifiedCount, add_results_errorCount.
  split; [congruence|]. exists (new ++ new').
  rewrite Hq', Hq, app_assoc, Forall_app, !count_app, length_app.
  assert (Hc : count (skips st) batch = count (skips st0) batch).
  { apply count_ext. intros e. by apply skips_descriptor. }
  repeat split; try done; try lia.
  intros e Hin Hskip. apply elem_of_app in Hin as [Hin|Hin].
  - destruct (Hf e Hin Hskip) as (r & Hr & Hr'). exists r.
    rewrite elem_of_app. by auto.
  - rewrite <- (skips_descriptor st0 st e Hd) in Hskip.
    destruct (Hf' e Hin Hskip) as (r & Hr & Hr1 & Hr2). exists r.
    rewrite elem_of_app, Hr2. split; [by auto|]. split; [done|].
    by apply getFunctionName_descriptor.
Qed.

End Ledger.

(** ** Remote reconciliation: the batches of a run *)

Lemma chunks_nil {A} (fuel size : nat) : chunks fuel size (@nil A) = [].
Proof. by destruct fuel. Qed.

Lemma chunks_nonempty {A} (fuel size : nat) (l : list A) :
  l ≠ [] → chunks (S fuel) size l = take size l :: chunks fuel size (drop size l).
Proof. by destruct l. Qed.

Lemma chunks_join {A} (fuel size : nat) (l : list A) :
  0 < size → length l ≤ fuel → mjoin (chunks fuel size l) = l.
Proof.
  intros Hsize. revert l. induction fuel as [|fuel IH]; intros l Hl.
  - destruct l; [done | simpl in Hl; lia].
  - destruct l as [|x l]; [done|].
    rewrite chunks_nonempty by done. simpl mjoin.
    rewrite IH; [apply take_drop|].
    rewrite length_drop. simpl in *. lia.
Qed.

Lemma chunks_sizes {A} (fuel size : nat) (l : list A) :
  0 < size → Forall (λ b, 0 < length b ≤ size) (chunks fuel size l).
Proof.
  intros Hsize. revert l. induction fuel as [|fuel IH]; intros l; [constructor|].
  destruct l as [|x l]; [constructor|].
  rewrite chunks_nonempty by done. constructor; [|apply IH].
  rewrite length_take. simpl. lia.
Qed.

Lemma chunks_full {A} (fuel size : nat) (l : list A) (k : nat) (b : list A) :
  chunks fuel size l !! k = Some b →
  S k < length (chunks fuel size l) →
  length b = size.
Proof.
  revert l k. induction fuel as [|fuel IH]; intros l k Hb Hk; [done|].
  destruct l as [|x l]; [done|].
  rewrite chunks_nonempty in Hb, Hk by done.
  destruct k as [|k].
  - simpl in Hb. injection Hb as <-. simpl in Hk.
    destruct (drop size (x :: l)) as [|y l'] eqn:Ed.
    { rewrite chunks_nil in Hk. simpl in Hk. lia. }
    assert (Hlen : length (drop size (x :: l)) = S (length l')) by by rewrite Ed.
    rewrite length_drop in Hlen. rewrite length_take. lia.
  - simpl in Hb, Hk. eapply IH; [exact Hb | lia].
Qed.

Example seven_names_two_batches :
  length <$> consecutive_batches AWS_CONCURRENCY_BATCH_SIZE
               ["f1"; "f2"; "f3"; "f4"; "f5"; "f6"; "f7"] = [5; 2].
Proof. reflexivity. Qed.

Section RunFacts.
Context {World : Type}.
Variable request : Method → string → World → Response * World.
Implicit Types (st : State World) (entries : Functions).

(** The loop runs the consecutive batches of its input. *)
Lemma batches_loop_run fuel i entries schedules acc st :
  batches_loop request fuel i entries schedules acc st
  = run_batches request
      (chunks fuel AWS_CONCURRENCY_BATCH_SIZE (drop i entries)) schedules acc st.
Proof.
  revert i schedules acc st.
  induction fuel as [|fuel IH]; intros i schedules acc st; [done|].
  cbn [batches_loop]. destruct (i <? length entries) eqn:Ei.
  - apply Nat.ltb_lt in Ei.
    rewrite chunks_nonempty.
    2:{ intros Hnil. apply (f_equal length) in Hnil.
        rewrite length_drop in Hnil. simpl in Hnil. lia. }
    cbn [run_batches]. unfold slice.
    replace (i + AWS_CONCURRENCY_BATCH_SIZE - i) with AWS_CONCURRENCY_BATCH_SIZE by lia.
    destruct (start_batch _ st) as [ts st1].
    destruct (Promise_all request (hd [] schedules) ts st1) as [rs st2].
    rewrite IH. by rewrite drop_drop.
  - apply Nat.ltb_ge in Ei. rewrite drop_ge by done. by rewrite chunks_nil.
Qed.

Lemma processAwsFunctionsInBatches_run entries schedules st :
  _processAwsFunctionsInBatches request entries schedules st
  = run_batches request (consecutive_batches AWS_CONCURRENCY_BATCH_SIZE entries)
      schedules {| modifiedCount := 0; errorCount := 0 |} st.
Proof.
  unfold _processAwsFunctionsInBatches. rewrite batches_loop_run.
  by rewrite drop_0.
Qed.

Lemma consecutive_batches_join entries :
  mjoin (consecutive_batches AWS_CONCURRENCY_BATCH_SIZE entries) = entries.
Proof. apply chunks_join; [unfold AWS_CONCURRENCY_BATCH_SIZE; lia | done]. Qed.

(** The ledger of a whole run. *)
Lemma reconcile_ledger entries schedules st :
  run_inv st entries
    (_processAwsFunctionsInBatches request entries schedules st).1
    (_processAwsFunctionsInBatches request entries schedules st).2.
Proof.
  rewrite processAwsFunctionsInBatches_run.
  rewrite <- (consecutive_batches_join entries) at 1.
  apply (run_batches_invariant request (run_inv st) (run_inv_batch request st)
           _ schedules []).
  split; [done|]. exists []. rewrite app_nil_r. repeat split; try done.
  intros e He. by apply elem_of_nil in He.
Qed.

End RunFacts.

(** ** Remote reconciliation: a whole run *)

Example seven_names_third_fails :
  let out := _processAwsFunctionsInBatches lambda_request seven_functions []
               (initial {| service := "svc"; stage := "dev";
                           functions := Some seven_functions |} six_deployed) in
  out.1 = {| modifiedCount := 6; errorCount := 1 |}
  ∧ FunctionName <$> requests out.2 =
      ["svc-dev-f1"; "svc-dev-f1"; "svc-dev-f2"; "svc-dev-f2"; "svc-dev-f3";
       "svc-dev-f4"; "svc-dev-f4"; "svc-dev-f5"; "svc-dev-f5";
       "svc-dev-f6"; "svc-dev-f6"; "svc-dev-f7"; "svc-dev-f7"].
Proof. vm_compute. done. Qed.

(** The same run when the requests of the first batch settle interleaved:
    the five fetches first, last function first, then the deletions. *)
Example seven_names_interleaved :
  let out := _processAwsFunctionsInBatches lambda_request seven_functions
               [[4; 3; 2; 1; 0]]
               (initial {| service := "svc"; stage := "dev";
                           functions := Some seven_functions |} six_deployed) in
  out.1 = {| modifiedCount := 6; errorCount := 1 |}
  ∧ FunctionName <$> requests out.2 =
      ["svc-dev-f5"; "svc-dev-f4"; "svc-dev-f3"; "svc-dev-f2"; "svc-dev-f1";
       "svc-dev-f1"; "svc-dev-f2"; "svc-dev-f4"; "svc-dev-f5";
       "svc-dev-f6"; "svc-dev-f6"; "svc-dev-f7"; "svc-dev-f7"].
Proof. vm_compute. done. Qed.

(** C2. Bulk reconciliation runs the consecutive batches of five of its
    input, one after the other (the last batch may be shorter, seven names
    make a batch of five and one of two). A request that fails is counted as
    one error and stops nothing: the fetch of every function that is not
    skipped is made, in the first batch and in the later ones. *)
Theorem bulk_reconciliation_batches {World}
    (request : Method → string → World → Response * World)
    (entries : Functions) (schedules : list (list nat)) (st : State World) :
  let out := _processAwsFunctionsInBatches request entries schedules st in
  let batches := consecutive_batches AWS_CONCURRENCY_BATCH_SIZE entries in
  out = run_batches request batches schedules
          {| modifiedCount := 0; errorCount := 0 |} st
  ∧ mjoin batches = entries
  ∧ Forall (λ b, 0 < length b ≤ 5) batches
  ∧ (∀ k b, batches !! k = Some b → S k < length batches → length b = 5)
  ∧ length <$> consecutive_batches AWS_CONCURRENCY_BATCH_SIZE seven_functions = [5; 2]
  ∧ ∃ new,
      requests out.2 = requests st ++ new
      ∧ errorCount out.1 = count rejected new
      ∧ ∀ e, e ∈ entries → skips st e = false →
          ∃ r, r ∈ new ∧ method r = getFunctionConfiguration
               ∧ FunctionName r = _getFunctionName e.1 st.
Proof.
  intros out batches. split; [apply processAwsFunctionsInBatches_run|].
  split; [apply consecutive_batches_join|].
  split; [apply (chunks_sizes _ 5); lia|].
  split; [intros k b; apply chunks_full|].
  split; [reflexivity|].
  destruct (reconcile_ledger request entries schedules st)
    as (_ & new & Hq & _ & _ & He & _ & Hf).
  exists new. done.
Qed.

Lemma single_function_result {World}
    (request : Method → string → World → Response * World)
    (functionName : string) (st : State World) :
  (_processSingleAwsFunction request functionName st).1
  ∈ [ {| modifiedCount := 1; errorCount := 0 |};
      {| modifiedCount := 0; errorCount := 1 |};
      {| modifiedCount := 0; errorCount := 0 |} ].
Proof.
  unfold _processSingleAwsFunction, _processAwsFunction.
  destruct (_shouldSkipFunction _); simpl; [set_solver|].
  unfold settle_request; simpl.
  destruct (request getFunctionConfiguration _ (remote st)) as [[msg|[n|]] w];
    simpl; [set_solver | | set_solver].
  unfold settle_request; simpl.
  destruct (request deleteFunctionConcurrency _ w) as [[msg|v] w']; simpl; set_solver.
Qed.

(** C6. Every function of a run contributes to exactly one count: the
    modified ones are the fulfilled deletions, the errored ones the rejected
    requests, and the rest, skipped for the warm-up marker or found without
    reserved concurrency, make up the difference to the number of functions.
    One function alone is modified, or errored, or neither. *)
Theorem reconciliation_counts_partition {World}
    (request : Method → string → World → Response * World)
    (entries : Functions) (schedules : list (list nat)) (st : State World) :
  let out := _processAwsFunctionsInBatches request entries schedules st in
  (∃ new,
     requests out.2 = requests st ++ new
     ∧ modifiedCount out.1 = count deletion_fulfilled new
     ∧ errorCount out.1 = count rejected new
     ∧ let skippedCount := count (skips st) entries + count found_without new in
       modifiedCount out.1 + errorCount out.1 + skippedCount = length entries)
  ∧ ∀ functionName,
      (_processSingleAwsFunction request functionName st).1
      ∈ [ {| modifiedCount := 1; errorCount := 0 |};
          {| modifiedCount := 0; errorCount := 1 |};
          {| modifiedCount := 0; errorCount := 0 |} ].
Proof.
  intros out. split; [|intros name; apply single_function_result].
  destruct (reconcile_ledger request entries schedules st)
    as (_ & new & Hq & _ & Hm & He & Hn & _).
  exists new. done.
Qed.

Section SkipFacts.
Context {World : Type}.
Variable request : Method → string → World → Response * World.
Implicit Types (st : State World) (entries batch : Functions).

Lemma shouldSkipFunction_iff (awsFunctionName : string) :
  _shouldSkipFunction awsFunctionName = true
  ↔ ∃ before after,
      awsFunctionName = before +:+ WARMUP_FUNCTION_IDENTIFIER +:+ after.
Proof. apply includes_app. Qed.

(** A batch whose tasks have all returned at once makes no request. *)
Lemma idle_batch_resume q w d pre t post st :
  idle_inv q w d (pre ++ t :: post) st →
  idle_inv q w d (pre ++ (resume request t st).1 :: post) (resume request t st).2.
Proof.
  intros (Hall & Hq & Hw & Hd).
  assert (Ht : t = Returned {| modifiedCount := 0; errorCount := 0 |}).
  { apply Forall_app in Hall as [_ Hall]. by apply Forall_cons in Hall as [Ht _]. }
  subst t. by rewrite resume_Returned.
Qed.

Lemma skipped_batch batch schedule st :
  (∀ e, skips st e = true) →
  let out := Promise_all request schedule (start_batch batch st).1
                         (start_batch batch st).2 in
  Forall (λ r, r = {| modifiedCount := 0; errorCount := 0 |}) out.1
  ∧ requests out.2 = requests st
  ∧ remote out.2 = remote st
  ∧ descriptor out.2 = descriptor st.
Proof.
  intros Hskip out.
  destruct (start_batch_spec batch st) as (Hd & Hq & Hr & Hts).
  pose proof (Promise_all_invariant request
                (idle_inv (requests st) (remote st) (descriptor st))
                (idle_batch_resume (requests st) (remote st) (descriptor st))
                schedule (start_batch batch st).1 (start_batch batch st).2) as H.
  fold out in H. destruct H as (Hall & H).
  - split; [|done]. rewrite Hts. apply Forall_fmap, Forall_forall.
    intros e _. simpl. by rewrite Hskip.
  - split; [|done]. apply Forall_fmap in Hall.
    eapply Forall_impl; [exact Hall|]. simpl. intros r Hr'. congruence.
Qed.

Lemma add_results_idle acc rs :
  Forall (λ r, r = {| modifiedCount := 0; errorCount := 0 |}) rs →
  add_results acc rs = acc.
Proof.
  revert acc. induction rs as [|r rs IH]; intros acc Hall; [done|].
  apply Forall_cons in Hall as [-> Hall]. unfold add_results in *. simpl.
  rewrite IH by done. destruct acc as [m e]. simpl. f_equal; lia.
Qed.

Lemma skipped_run entries schedules st :
  (∀ e, skips st e = true) →
  let out := _processAwsFunctionsInBatches request entries schedules st in
  out.1 = {| modifiedCount := 0; errorCount := 0 |}
  ∧ requests out.2 = requests st
  ∧ remote out.2 = remote st.
Proof.
  intros Hskip out. unfold out. rewrite processAwsFunctionsInBatches_run.
  set (R := λ (_ : Functions) (acc : ProcessingResult) (st' : State World),
              acc = {| modifiedCount := 0; errorCount := 0 |}
              ∧ requests st' = requests st ∧ remote st' = remote st
              ∧ descriptor st' = descriptor st).
  assert (HR : ∀ done batch schedule acc st',
    R done acc st' →
    R (done ++ batch)
      (add_results acc
         (Promise_all request schedule (start_batch batch st').1
                      (start_batch batch st').2).1)
      (Promise_all request schedule (start_batch batch st').1
                   (start_batch batch st').2).2).
  { intros done0 batch schedule acc st' (-> & Hq & Hr & Hd).
    destruct (skipped_batch batch schedule st') as (Hall & Hq' & Hr' & Hd').
    { intros e. rewrite (skips_descriptor st st' e Hd). apply Hskip. }
    rewrite add_results_idle by done. unfold R. repeat split; congruence. }
  destruct (run_batches_invariant request R HR
              (consecutive_batches AWS_CONCURRENCY_BATCH_SIZE entries)
              schedules [] {| modifiedCount := 0; errorCount := 0 |} st)
    as (H1 & H2 & H3 & _); [by unfold R | done].
Qed.

End SkipFacts.

(** C5. A function whose remote identifier carries the warm-up marker is
    left alone, whatever the provider holds for it: its call returns at once
    with neither count set, in the bulk form and in the single form, and no
    request of a bulk run names it. *)
Theorem warmup_function_never_requested {World}
    (request : Method → string → World → Response * World)
    (functionName : string) (entries : Functions) (schedules : list (list nat))
    (st : State World) :
  (∃ before after,
     _getFunctionName functionName st
     = before +:+ WARMUP_FUNCTION_IDENTIFIER +:+ after) →
  (_processAwsFunction functionName st).1
    = Returned {| modifiedCount := 0; errorCount := 0 |}
  ∧ (_processSingleAwsFunction request functionName st).1
    = {| modifiedCount := 0; errorCount := 0 |}
  ∧ requests (_processSingleAwsFunction request functionName st).2 = requests st
  ∧ remote (_processSingleAwsFunction request functionName st).2 = remote st
  ∧ ∃ new,
      requests (_processAwsFunctionsInBatches request entries schedules st).2
      = requests st ++ new
      ∧ Forall (λ r, FunctionName r ≠ _getFunctionName functionName st) new.
Proof.
  intros Hmark. apply shouldSkipFunction_iff in Hmark.
  unfold _processSingleAwsFunction, _processAwsFunction. rewrite Hmark. simpl.
  repeat split; try done.
  destruct (reconcile_ledger request entries schedules st)
    as (_ & new & Hq & Hns & _).
  exists new. split; [done|].
  eapply Forall_impl; [exact Hns|]. simpl. intros r Hr Heq.
  rewrite Heq in Hr. congruence.
Qed.

Lemma warmup_function_never_requested_witness :
  (_processAwsFunction "warmUpPlugin" (warm_state "dev")).1
    = Returned {| modifiedCount := 0; errorCount := 0 |}
  ∧ (_processSingleAwsFunction lambda_request "warmUpPlugin" (warm_state "dev")).1
    = {| modifiedCount := 0; errorCount := 0 |}
  ∧ requests (_processSingleAwsFunction lambda_request "warmUpPlugin"
                (warm_state "dev")).2 = requests (warm_state "dev")
  ∧ remote (_processSingleAwsFunction lambda_request "warmUpPlugin"
              (warm_state "dev")).2 = remote (warm_state "dev")
  ∧ ∃ new,
      requests (_processAwsFunctionsInBatches lambda_request warm_functions []
                  (warm_state "dev")).2
      = requests (warm_state "dev") ++ new
      ∧ Forall (λ r, FunctionName r ≠ _getFunctionName "warmUpPlugin" (warm_state "dev"))
               new.
Proof.
  apply (warmup_function_never_requested lambda_request "warmUpPlugin"
           warm_functions [] (warm_state "dev")).
  exists "svc-dev-", "Plugin". reflexivity.
Defined.

Example warmup_run :
  let out := _processAwsFunctionsInBatches lambda_request warm_functions []
               (warm_state "dev") in
  out.1 = {| modifiedCount := 1; errorCount := 0 |}
  ∧ FunctionName <$> requests out.2 = ["svc-dev-hello"; "svc-dev-hello"]
  ∧ deployed (remote out.2) !! "svc-dev-warmUpPlugin" = Some (Some 1%Z).
Proof. vm_compute. done. Qed.

Lemma marker_in_descriptor_skips (st_service st_stage name : string) :
  (∃ before after, st_service = before +:+ WARMUP_FUNCTION_IDENTIFIER +:+ after)
  ∨ (∃ before after, st_stage = before +:+ WARMUP_FUNCTION_IDENTIFIER +:+ after) →
  _shouldSkipFunction (st_service +:+ "-" +:+ st_stage +:+ "-" +:+ name) = true.
Proof.
  unfold _shouldSkipFunction. intros [H|H]; apply includes_app in H.
  - by apply includes_app_l.
  - by apply includes_app_r, includes_app_r, includes_app_l.
Qed.

(** C10. The marker is looked for in the whole remote identifier: when the
    service identifier or the stage carries it, every function is skipped,
    and a bulk run makes no request at all, whatever the logical names. *)
Theorem marker_in_service_or_stage_skips_all {World}
    (request : Method → string → World → Response * World)
    (entries : Functions) (schedules : list (list nat)) (st : State World) :
  (∃ before after,
     service (descriptor st) = before +:+ WARMUP_FUNCTION_IDENTIFIER +:+ after)
  ∨ (∃ before after,
       stage (descriptor st) = before +:+ WARMUP_FUNCTION_IDENTIFIER +:+ after) →
  (∀ functionName, _shouldSkipFunction (_getFunctionName functionName st) = true)
  ∧ let out := _processAwsFunctionsInBatches request entries schedules st in
    out.1 = {| modifiedCount := 0; errorCount := 0 |}
    ∧ requests out.2 = requests st
    ∧ remote out.2 = remote st.
Proof.
  intros Hmark.
  assert (Hall : ∀ functionName,
            _shouldSkipFunction (_getFunctionName functionName st) = true).
  { intros name. by apply marker_in_descriptor_skips. }
  split; [exact Hall|].
  apply skipped_run. intros e. apply Hall.
Qed.

Lemma marker_in_service_or_stage_skips_all_witness :
  _isDevelopmentStage "feature-warmUp" = true
  ∧ (∀ functionName,
       _shouldSkipFunction
         (_getFunctionName functionName (warm_state "feature-warmUp")) = true)
  ∧ let out := _processAwsFunctionsInBatches lambda_request warm_functions []
                 (warm_state "feature-warmUp") in
    out.1 = {| modifiedCount := 0; errorCount := 0 |}
    ∧ requests out.2 = requests (warm_state "feature-warmUp")
    ∧ remote out.2 = remote (warm_state "feature-warmUp").
Proof.
  split; [reflexivity|].
  apply (marker_in_service_or_stage_skips_all lambda_request warm_functions []
           (warm_state "feature-warmUp")).
  right. exists "feature-", "". reflexivity.
Defined.

(** ** The single-function hook and the lifecycle *)

(** C7. Without a target function name, none given or an empty one, the
    single-function hook makes no remote request, logs one error, "No
    function specified", between the start and the end messages of the
    timing wrapper, and resolves normally. *)
Theorem no_function_specified {World}
    (request : Method → string → World → Response * World)
    (opts : ServerlessOptions) (st : State World) :
  function opts = None ∨ function opts = Some "" →
  let out := _removeReservedConcurrencyFromAwsForFunction request opts st in
  out.1 = Return tt
  ∧ requests out.2 = requests st
  ∧ remote out.2 = remote st
  ∧ descriptor out.2 = descriptor st
  ∧ ∃ new,
      logged out.2 = logged st ++ new
      ∧ new = [(INFO, Starting "Remove reserved concurrency from AWS for single function");
               (ERROR, NoFunctionSpecified);
               (INFO, Finished "Remove reserved concurrency from AWS for single function")]
      ∧ count is_error new = 1.
Proof.
  intros Hnone out. unfold out, _removeReservedConcurrencyFromAwsForFunction,
    _measureExecutionTime, _validateFunctionName.
  destruct Hnone as [-> | ->]; simpl; repeat split; try done;
    eexists; (split; [by rewrite <- !app_assoc|]); done.
Qed.

Lemma no_function_specified_witness :
  let out := _removeReservedConcurrencyFromAwsForFunction lambda_request
               {| function := Some "" |} (warm_state "dev") in
  out.1 = Return tt
  ∧ requests out.2 = requests (warm_state "dev")
  ∧ remote out.2 = remote (warm_state "dev")
  ∧ descriptor out.2 = descriptor (warm_state "dev")
  ∧ ∃ new,
      logged out.2 = logged (warm_state "dev") ++ new
      ∧ new = [(INFO, Starting "Remove reserved concurrency from AWS for single function");
               (ERROR, NoFunctionSpecified);
               (INFO, Finished "Remove reserved concurrency from AWS for single function")]
      ∧ count is_error new = 1.
Proof.
  apply (no_function_specified lambda_request {| function := Some "" |}
           (warm_state "dev")).
  right. reflexivity.
Defined.

Example single_function_named :
  let out := _removeReservedConcurrencyFromAwsForFunction lambda_request
               {| function := Some "hello" |} (warm_state "dev") in
  out.1 = Return tt
  ∧ FunctionName <$> requests out.2 = ["svc-dev-hello"; "svc-dev-hello"]
  ∧ count is_error (logged out.2) = 0.
Proof. vm_compute. done. Qed.

Example development_stage_hooks :
  dom (hooks (constructor {| function := None |} (warm_state "Feature-XYZ")).1)
  = list_to_set
      ["before:deploy:deploy"; "before:deploy:function:deploy";
       "before:package:createDeploymentArtifacts";
       "before:aws:deploy:deploy:createStack";
       "after:aws:deploy:deploy:updateStack"; "after:deploy:function:deploy"].
Proof. vm_compute. done. Qed.

(** C8. For a stage that is not development-like the constructor registers
    no operation: the hooks mapping is empty, in both revisions, so firing
    any extension point later, in any state, runs nothing of the plugin. *)
Theorem production_stage_registers_nothing {World}
    (request : Method → string → World → Response * World)
    (opts : ServerlessOptions) (st : State World) :
  _isDevelopmentStage (stage (descriptor st)) = false →
  let plugin := (constructor opts st).1 in
  hooks plugin = ∅
  ∧ (∀ extensionPoint schedules (st' : State World),
       fire request plugin extensionPoint schedules st' = (Return tt, st'))
  ∧ (Legacy.constructor st).1 = ∅.
Proof.
  intros Hprod plugin.
  assert (Hhooks : hooks plugin = ∅).
  { unfold plugin, constructor. by rewrite Hprod. }
  split; [exact Hhooks|]. split.
  - intros extensionPoint schedules st'. unfold fire.
    by rewrite Hhooks, lookup_empty.
  - unfold Legacy.constructor. by rewrite legacy_isDevelopmentStage_eq, Hprod.
Qed.

Lemma production_stage_registers_nothing_witness :
  let plugin := (constructor {| function := Some "hello" |} (warm_state "production")).1 in
  hooks plugin = ∅
  ∧ (∀ extensionPoint schedules (st' : State Lambda),
       fire lambda_request plugin extensionPoint schedules st' = (Return tt, st'))
  ∧ (Legacy.constructor (warm_state "production")).1 = ∅.
Proof.
  apply (production_stage_registers_nothing lambda_request
           {| function := Some "hello" |} (warm_state "production")).
  reflexivity.
Defined.

(** The same for an invariant that needs to know something of each batch. *)
Lemma run_batches_invariant_on {World}
    (request : Method → string → World → Response * World)
    (B : Functions → Prop)
    (R : Functions → ProcessingResult → State World → Prop) :
  (∀ done batch schedule acc st,
     B batch → R done acc st →
     R (done ++ batch)
       (add_results acc
          (Promise_all request schedule (start_batch batch st).1
                       (start_batch batch st).2).1)
       (Promise_all request schedule (start_batch batch st).1
                    (start_batch batch st).2).2) →
  ∀ batches schedules done acc st,
    Forall B batches → R done acc st →
    R (done ++ mjoin batches)
      (run_batches request batches schedules acc st).1
      (run_batches request batches schedules acc st).2.
Proof.
  intros R_batch batches.
  induction batches as [|batch batches IH]; intros schedules done acc st HB HR.
  - simpl. by rewrite app_nil_r.
  - apply Forall_cons in HB as [Hb HB].
    simpl. apply (R_batch _ batch (hd [] schedules)) in HR; [|done].
    destruct (start_batch batch st) as [ts st1]. simpl in HR.
    destruct (Promise_all request (hd [] schedules) ts st1) as [rs st2].
    simpl in HR. rewrite app_assoc. by apply IH.
Qed.

Lemma consecutive_batches_within (entries : Functions) :
  Forall (λ batch, ∀ e, e ∈ batch → e ∈ entries)
         (consecutive_batches AWS_CONCURRENCY_BATCH_SIZE entries).
Proof.
  apply Forall_forall. intros batch Hb e He.
  rewrite <- (consecutive_batches_join entries).
  apply list_elem_of_join. by exists batch.
Qed.

(** ** Running the reconciliation twice *)

Lemma lambda_laws : ProviderLaws lambda_request lambda_reserved.
Proof.
  split.
  - intros id w. unfold lambda_request, lambda_reserved.
    destruct (outage w); [|done].
    destruct (deployed w !! id) as [[n|]|]; done.
  - intros m id' w id. unfold lambda_request, lambda_reserved.
    destruct (outage w); [|done].
    destruct (deployed w !! id') as [c|] eqn:E; [|done].
    destruct m; [done|]. simpl. intros H.
    destruct (decide (id' = id)) as [->|Hne].
    + by rewrite lookup_insert_eq.
    + by rewrite lookup_insert_ne.
  - intros id w v. unfold lambda_request, lambda_reserved.
    destruct (outage w); [|done].
    destruct (deployed w !! id) as [c|] eqn:E; [|done].
    simpl. intros _. by rewrite lookup_insert_eq.
Qed.

Section TwoRuns.
Context {World : Type}.
Variable request : Method → string → World → Response * World.
Variable reserved : World → string → bool.
Hypothesis laws : ProviderLaws request reserved.
Implicit Types (st : State World) (t : Task) (ts : list Task) (batch entries : Functions).

Lemma resume_descriptor t st : descriptor (resume request t st).2 = descriptor st.
Proof.
  destruct t as [r|fn [aws|aws]]; simpl; [done| |]; unfold settle_request.
  - by destruct (request getFunctionConfiguration aws (remote st)) as [[msg|[n|]] w].
  - by destruct (request deleteFunctionConcurrency aws (remote st)) as [[msg|v] w].
Qed.

(** Nothing a task does sets a reserved concurrency. *)
Lemma resume_nothing_reserves t st id :
  reserved (remote st) id = false →
  reserved (remote (resume request t st).2) id = false.
Proof.
  intros H. destruct t as [r|fn [aws|aws]]; simpl; [done| |]; unfold settle_request.
  - pose proof (nothing_reserves _ _ laws getFunctionConfiguration aws _ id H) as H'.
    by destruct (request getFunctionConfiguration aws (remote st)) as [[msg|[n|]] w].
  - pose proof (nothing_reserves _ _ laws deleteFunctionConcurrency aws _ id H) as H'.
    by destruct (request deleteFunctionConcurrency aws (remote st)) as [[msg|v] w].
Qed.

Lemma Promise_all_nothing_reserves schedule ts st id :
  reserved (remote st) id = false →
  reserved (remote (Promise_all request schedule ts st).2) id = false.
Proof.
  apply (Promise_all_invariant request (λ _ st', reserved (remote st') id = false)).
  intros _ t _ st'. apply resume_nothing_reserves.
Qed.

Lemma Promise_all_descriptor schedule ts st :
  descriptor (Promise_all request schedule ts st).2 = descriptor st.
Proof.
  apply (Promise_all_invariant request (λ _ st', descriptor st' = descriptor st));
    [|done].
  intros _ t _ st' H. by rewrite resume_descriptor.
Qed.

(** *** The first run, when it ends without an error *)

Lemma leaves_settled_mono st0 w w' e t :
  (∀ id, reserved w id = false → reserved w' id = false) →
  leaves_settled reserved st0 w e t → leaves_settled reserved st0 w' e t.
Proof.
  intros Hmono. destruct t as [r|fn a]; simpl; [|done].
  intros H Hr. destruct (H Hr) as [Hs|Hc]; [by left | right; by apply Hmono].
Qed.

Lemma first_run_inv_start st0 batch st :
  descriptor st = descriptor st0 →
  first_run_inv reserved st0 batch (start_batch batch st).1 (start_batch batch st).2.
Proof.
  intros Hd0. destruct (start_batch_spec batch st) as (Hd & Hq & Hr & Hts).
  split; [congruence|]. rewrite Hts, Hr. apply Forall2_fmap_r.
  clear Hts Hd Hq Hr. induction batch as [|e batch IH]; [constructor|].
  constructor; [|done]. simpl. rewrite (skips_descriptor st0 st e Hd0).
  destruct (skips st0 e) eqn:E; simpl.
  - intros _. by left.
  - by apply getFunctionName_descriptor.
Qed.

Lemma first_run_inv_resume st0 batch pre t post st :
  first_run_inv reserved st0 batch (pre ++ t :: post) st →
  first_run_inv reserved st0 batch (pre ++ (resume request t st).1 :: post)
                (resume request t st).2.
Proof.
  intros (Hd & Hall). split; [by rewrite resume_descriptor|].
  apply Forall2_app_inv_r in Hall as (bpre & brest & Hpre & Hrest & ->).
  apply Forall2_cons_inv_r in Hrest as (e & bpost & He & Hpost & ->).
  assert (Hmono : ∀ id, reserved (remote st) id = false →
                        reserved (remote (resume request t st).2) id = false)
    by (intros id; apply resume_nothing_reserves).
  apply Forall2_app; [|constructor].
  - eapply Forall2_impl; [exact Hpre|]. intros x y. by apply leaves_settled_mono.
  - clear Hpre Hpost Hmono.
    destruct t as [r|fn [aws|aws]]; simpl in *; [done| |]; unfold settle_request.
    + pose proof (fetch_is_faithful _ _ laws aws (remote st)) as Hf.
      pose proof (nothing_reserves _ _ laws getFunctionConfiguration aws
                    (remote st) aws) as Hn.
      destruct (request getFunctionConfiguration aws (remote st)) as [[msg|[n|]] w];
        simpl in *; [done | done |].
      intros _. right. rewrite <- He. by apply Hn.
    + pose proof (deletion_removes _ _ laws aws (remote st)) as Hdel.
      destruct (request deleteFunctionConcurrency aws (remote st)) as [[msg|v] w];
        simpl in *; [done|].
      intros _. right. rewrite <- He. by eapply Hdel.
  - eapply Forall2_impl; [exact Hpost|]. intros x y. by apply leaves_settled_mono.
Qed.

Lemma returned_leave_settled st0 w batch (rs : list ProcessingResult) :
  Forall2 (leaves_settled reserved st0 w) batch (Returned <$> rs) →
  sum_list_with errorCount rs = 0 →
  ∀ e, e ∈ batch → settled reserved st0 w e.
Proof.
  revert batch. induction rs as [|r rs IH]; intros batch Hall Hsum e Hin.
  - apply Forall2_nil_inv_r in Hall as ->. by apply elem_of_nil in Hin.
  - rewrite fmap_cons in Hall.
    apply Forall2_cons_inv_r in Hall as (e0 & batch' & He & Hall & ->).
    simpl in Hsum. apply elem_of_cons in Hin as [->|Hin].
    + apply He. lia.
    + eapply IH; [exact Hall | lia | done].
Qed.

Lemma first_run_batch st0 batch schedule st :
  descriptor st = descriptor st0 →
  let out := Promise_all request schedule (start_batch batch st).1
                         (start_batch batch st).2 in
  sum_list_with errorCount out.1 = 0 →
  ∀ e, e ∈ batch → settled reserved st0 (remote out.2) e.
Proof.
  intros Hd0 out.
  pose proof (Promise_all_invariant request (first_run_inv reserved st0 batch)
                (first_run_inv_resume st0 batch) schedule _ _
                (first_run_inv_start st0 batch st Hd0)) as [_ Hall].
  fold out in Hall. by apply returned_leave_settled.
Qed.

(** *** The second run, over entries that are all settled *)

Lemma modifies_nothing_mono w w' t :
  (∀ id, reserved w id = false → reserved w' id = false) →
  modifies_nothing reserved w t → modifies_nothing reserved w' t.
Proof.
  intros Hmono. destruct t as [r|fn [aws|aws]]; simpl; auto.
Qed.

Lemma second_run_inv_resume pre t post st :
  second_run_inv reserved (pre ++ t :: post) st →
  second_run_inv reserved (pre ++ (resume request t st).1 :: post)
                 (resume request t st).2.
Proof.
  unfold second_run_inv. rewrite !Forall_app, !Forall_cons.
  intros (Hpre & Ht & Hpost).
  assert (Hmono : ∀ id, reserved (remote st) id = false →
                        reserved (remote (resume request t st).2) id = false)
    by (intros id; apply resume_nothing_reserves).
  split; [|split].
  - eapply Forall_impl; [exact Hpre|]. intros x. by apply modifies_nothing_mono.
  - clear Hpre Hpost Hmono.
    destruct t as [r|fn [aws|aws]]; simpl in *; [done| |done].
    unfold settle_request.
    pose proof (fetch_is_faithful _ _ laws aws (remote st)) as Hf.
    destruct (request getFunctionConfiguration aws (remote st)) as [[msg|[n|]] w];
      simpl in *; [done | congruence | done].
  - eapply Forall_impl; [exact Hpost|]. intros x. by apply modifies_nothing_mono.
Qed.

Lemma returned_modify_nothing w (rs : list ProcessingResult) :
  Forall (modifies_nothing reserved w) (Returned <$> rs) →
  sum_list_with modifiedCount rs = 0.
Proof.
  induction rs as [|r rs IH]; [done|].
  rewrite fmap_cons, Forall_cons. simpl. intros [Hr Hrs].
  rewrite Hr. by apply IH.
Qed.

Lemma second_run_batch batch schedule st :
  (∀ e, e ∈ batch → settled reserved st (remote st) e) →
  let out := Promise_all request schedule (start_batch batch st).1
                         (start_batch batch st).2 in
  sum_list_with modifiedCount out.1 = 0.
Proof.
  intros Hsettled out.
  destruct (start_batch_spec batch st) as (Hd & Hq & Hr & Hts).
  pose proof (Promise_all_invariant request (second_run_inv reserved)
                second_run_inv_resume schedule (start_batch batch st).1
                (start_batch batch st).2) as H.
  fold out in H. unfold second_run_inv in H at 2.
  assert (Hres : Forall (modifies_nothing reserved (remote out.2)) (Returned <$> out.1)).
  { apply H. unfold second_run_inv. rewrite Hts, Hr.
    apply Forall_fmap, Forall_forall. intros e Hin. simpl.
    destruct (skips st e) eqn:E; simpl; [done|].
    destruct (Hsettled e Hin) as [Hs|Hc]; [congruence | done]. }
  by eapply returned_modify_nothing.
Qed.

Lemma settled_mono st0 w w' e :
  (∀ id, reserved w id = false → reserved w' id = false) →
  settled reserved st0 w e → settled reserved st0 w' e.
Proof. intros Hmono [H|H]; [by left | right; by apply Hmono]. Qed.

Lemma settled_descriptor st0 st w e :
  descriptor st = descriptor st0 →
  settled reserved st0 w e → settled reserved st w e.
Proof.
  intros Hd. unfold settled.
  by rewrite (skips_descriptor st0 st e Hd), (getFunctionName_descriptor st0 st e.1 Hd).
Qed.

Lemma batch_keeps_settled st0 batch schedule st e :
  settled reserved st0 (remote st) e →
  settled reserved st0
    (remote (Promise_all request schedule (start_batch batch st).1
                         (start_batch batch st).2).2) e.
Proof.
  apply settled_mono. intros id Hid.
  apply Promise_all_nothing_reserves.
  destruct (start_batch_spec batch st) as (_ & _ & Hr & _). by rewrite Hr.
Qed.

Lemma batch_descriptor batch schedule st :
  descriptor (Promise_all request schedule (start_batch batch st).1
                          (start_batch batch st).2).2 = descriptor st.
Proof.
  rewrite Promise_all_descriptor.
  by destruct (start_batch_spec batch st) as (Hd & _).
Qed.

(** A run that ends without an error leaves every entry settled. *)
Lemma first_run_settles entries schedules st :
  let out := _processAwsFunctionsInBatches request entries schedules st in
  descriptor out.2 = descriptor st
  ∧ (errorCount out.1 = 0 → ∀ e, e ∈ entries → settled reserved st (remote out.2) e).
Proof.
  intros out. unfold out. rewrite processAwsFunctionsInBatches_run.
  set (R := λ (done : Functions) (acc : ProcessingResult) (st' : State World),
              descriptor st' = descriptor st
              ∧ (errorCount acc = 0 →
                 ∀ e, e ∈ done → settled reserved st (remote st') e)).
  assert (HR : ∀ done batch schedule acc st',
    R done acc st' →
    R (done ++ batch)
      (add_results acc
         (Promise_all request schedule (start_batch batch st').1
                      (start_batch batch st').2).1)
      (Promise_all request schedule (start_batch batch st').1
                   (start_batch batch st').2).2).
  { intros done0 batch schedule acc st' (Hd & Hdone). split.
    - by rewrite batch_descriptor.
    - rewrite add_results_errorCount. intros Hzero e Hin.
      apply elem_of_app in Hin as [Hin|Hin].
      + apply batch_keeps_settled, Hdone; [lia | done].
      + apply (first_run_batch st batch schedule st' Hd); [lia | done]. }
  pose proof (run_batches_invariant request R HR
                (consecutive_batches AWS_CONCURRENCY_BATCH_SIZE entries)
                schedules [] {| modifiedCount := 0; errorCount := 0 |} st) as H.
  rewrite consecutive_batches_join in H. apply H.
  split; [done|]. intros _ e Hin. by apply elem_of_nil in Hin.
Qed.

(** A run over settled entries modifies nothing. *)
Lemma second_run_modifies_nothing entries schedules st0 st :
  descriptor st = descriptor st0 →
  (∀ e, e ∈ entries → settled reserved st0 (remote st) e) →
  modifiedCount (_processAwsFunctionsInBatches request entries schedules st).1 = 0.
Proof.
  intros Hd0 Hsettled. rewrite processAwsFunctionsInBatches_run.
  set (R := λ (_ : Functions) (acc : ProcessingResult) (st' : State World),
              modifiedCount acc = 0
              ∧ descriptor st' = descriptor st0
              ∧ ∀ e, e ∈ entries → settled reserved st0 (remote st') e).
  destruct (run_batches_invariant_on request
              (λ batch, ∀ e, e ∈ batch → e ∈ entries) R) with
    (batches := consecutive_batches AWS_CONCURRENCY_BATCH_SIZE entries)
    (schedules := schedules) (done := @nil (string * FunctionConfig))
    (acc := {| modifiedCount := 0; errorCount := 0 |}) (st := st)
    as (Hm & _); [| apply consecutive_batches_within | done | done].
  intros done0 batch schedule acc st' Hb (Hm & Hd & Hall).
  split; [|split].
  - rewrite add_results_modifiedCount, Hm.
    rewrite (second_run_batch batch schedule st'); [done|].
    intros e Hin. apply (settled_descriptor st0 st' _ e Hd). by apply Hall, Hb.
  - by rewrite batch_descriptor.
  - intros e Hin. by apply batch_keeps_settled, Hall.
Qed.

End TwoRuns.

(** C3, as amended. When a run of the bulk reconciliation ends without an
    error, a second run right after it, on the remote world the first one
    left, reports no modification, whatever the schedules of the two runs. *)
Theorem second_run_after_clean_run {World}
    (request : Method → string → World → Response * World)
    (reserved : World → string → bool)
    (entries : Functions) (schedules1 schedules2 : list (list nat))
    (st : State World) :
  ProviderLaws request reserved →
  let first := _processAwsFunctionsInBatches request entries schedules1 st in
  errorCount first.1 = 0 →
  let second := _processAwsFunctionsInBatches request entries schedules2 first.2 in
  modifiedCount second.1 = 0.
Proof.
  intros laws first Hzero second.
  destruct (first_run_settles request reserved laws entries schedules1 st)
    as (Hd & Hsettled).
  apply (second_run_modifies_nothing request reserved laws entries schedules2 st first.2).
  - exact Hd.
  - by apply Hsettled.
Qed.

Lemma second_run_after_clean_run_witness :
  let first := _processAwsFunctionsInBatches lambda_request warm_functions [[1; 0]]
                 (warm_state "dev") in
  let second := _processAwsFunctionsInBatches lambda_request warm_functions []
                  first.2 in
  modifiedCount first.1 = 1 ∧ modifiedCount second.1 = 0.
Proof.
  split; [reflexivity|].
  apply (second_run_after_clean_run lambda_request lambda_reserved warm_functions
           [[1; 0]] [] (warm_state "dev") lambda_laws).
  reflexivity.
Defined.

(** C3, as stated, fails when the first run met an error: the error is
    swallowed, the run completes, the setting stays, and the second run
    removes it. Here the first fetch is rejected while the service is
    unavailable; the remote settings are the same before the two runs. *)
Lemma second_run_after_failed_run :
  let st := initial (hello_service "dev")
              {| deployed := {["svc-dev-hello" := Some 5%Z]}; outage := 1 |} in
  let entries := default [] (functions (hello_service "dev")) in
  let first := _processAwsFunctionsInBatches lambda_request entries [] st in
  let second := _processAwsFunctionsInBatches lambda_request entries [] first.2 in
  first.1 = {| modifiedCount := 0; errorCount := 1 |}
  ∧ deployed (remote first.2) = deployed (remote st)
  ∧ second.1 = {| modifiedCount := 1; errorCount := 0 |}
  ∧ modifiedCount second.1 ≠ 0.
Proof. vm_compute. repeat split; done. Qed.

(** * Further properties of the plugin *)

(** ** Remote identifiers *)

Lemma string_app_inj_l (p a b : string) : p +:+ a = p +:+ b → a = b.
Proof.
  induction p as [|c p IH]; [done|].
  rewrite !app_String. intros H. apply IH. congruence.
Qed.

(** X1. Within one descriptor, different logical names resolve to different
    remote identifiers. *)
Theorem getFunctionName_injective {World} (st : State World) (a b : string) :
  _getFunctionName a st = _getFunctionName b st → a = b.
Proof.
  unfold _getFunctionName. intros H.
  by do 4 apply string_app_inj_l in H.
Qed.

Lemma getFunctionName_injective_witness : "hello" = "hello".
Proof.
  apply (getFunctionName_injective (warm_state "dev") "hello" "hello").
  reflexivity.
Defined.

(** ** Stage classification: the dash of the feature prefix *)

Lemma lower_char_dash (c : ascii) : lower_char c = "-"%char → c = "-"%char.
Proof.
  destruct c as [[] [] [] [] [] [] [] []]; vm_compute; congruence.
Qed.

Lemma toLowerCase_app (a b : string) :
  toLowerCase (a +:+ b) = toLowerCase a +:+ toLowerCase b.
Proof.
  induction a as [|c a IH]; [done|].
  rewrite app_String. simpl. by rewrite IH, app_String.
Qed.

(** X2. The prefix rule needs its dash: a stage that goes on after "feature"
    (in any case) with a character other than "-" is not development-like. *)
Theorem feature_prefix_needs_dash (head : string) (c : ascii) (rest : string) :
  toLowerCase head = "feature" → c ≠ "-"%char →
  _isDevelopmentStage (head +:+ String c rest) = false.
Proof.
  intros Hhead Hc. apply not_true_is_false. intros H.
  apply isDevelopmentStage_true_iff in H.
  rewrite toLowerCase_app, Hhead in H. simpl in H.
  destruct H as [H|[H|[H|[tail H]]]]; try discriminate.
  injection H as H _. by apply lower_char_dash in H.
Qed.

Lemma feature_prefix_needs_dash_witness :
  _isDevelopmentStage ("Feature" +:+ String "s"%char "") = false.
Proof.
  apply (feature_prefix_needs_dash "Feature" "s"%char "").
  - reflexivity.
  - discriminate.
Defined.

(** ** Descriptor mutation, run again *)

Lemma stripped_idempotent (e : string * FunctionConfig) : stripped (stripped e) = stripped e.
Proof.
  unfold stripped. simpl. f_equal. apply delete_id, lookup_delete_eq.
Qed.

Lemma stripped_has_none (fs : Functions) :
  filter (λ e, has_reservedConcurrency e.2) (stripped <$> fs) = [].
Proof.
  induction fs as [|e fs IH]; [done|].
  rewrite fmap_cons, filter_cons_False; [done|].
  unfold has_reservedConcurrency, stripped. simpl.
  rewrite lookup_delete_eq. by intros [? ?].
Qed.

(** X3. Descriptor mutation is idempotent: a second pass over the mapping the
    first pass left finds nothing to remove, reports no modification and
    leaves the mapping as it is; so the hook, which is bound to several
    extension points of one deployment, leaves the same descriptor however
    often it fires. *)
Theorem descriptor_mutation_idempotent {World} (fs : Functions) (st : State World) :
  (let '(fs1, _, st1) := _processServerlessConfigFunctions fs st in
   let '(fs2, result2, _) := _processServerlessConfigFunctions fs1 st1 in
   fs2 = fs1 ∧ modifiedCount result2 = 0)
  ∧ descriptor (_removeReservedConcurrencyFromSLS
                  (_removeReservedConcurrencyFromSLS st).2).2
    = descriptor (_removeReservedConcurrencyFromSLS st).2.
Proof.
  split.
  - unfold _processServerlessConfigFunctions.
    destruct (forEach_entry_spec fs 0 st) as (Heq & _). rewrite Heq.
    destruct (forEach_entry_spec (stripped <$> fs) 0 (forEach_entry fs 0 st).2)
      as (Heq' & _). rewrite Heq'.
    rewrite stripped_has_none. split; [|done].
    rewrite <- list_fmap_compose. apply list_fmap_ext.
    intros i e _. apply stripped_idempotent.
  - assert (Hrun : ∀ st' : State World,
      descriptor (_removeReservedConcurrencyFromSLS st').2
      = {| service := service (descriptor st');
           stage := stage (descriptor st');
           functions := fmap (M := option) (fmap (M := list) stripped)
                             (functions (descriptor st')) |}).
    { intros st'. unfold _removeReservedConcurrencyFromSLS, _measureExecutionTime,
        _processServerlessConfigFunctions.
      set (st0 := log INFO (Starting _) st').
      assert (Hf : functions (descriptor st0) = functions (descriptor st')) by done.
      destruct (functions (descriptor st')) as [fs'|] eqn:Efs; rewrite Hf.
      - destruct (forEach_entry_spec fs' 0 st0) as (Heq & Hd & _).
        rewrite Heq. simpl. unfold _logServerlessConfigResult. simpl.
        destruct (0 <? _); simpl; rewrite Hd; done.
      - simpl. destruct (descriptor st'); simpl in *. by subst. }
    rewrite !Hrun. simpl. f_equal.
    destruct (functions (descriptor st)) as [fs'|]; simpl; [|done].
    f_equal. rewrite <- list_fmap_compose. apply list_fmap_ext.
    intros i e _. apply stripped_idempotent.
Qed.

(** ** A descriptor without functions *)

(** X4. With no function in the descriptor (no mapping at all, or an empty
    one) the hooks still run to the end: descriptor mutation logs that no
    function had reserved concurrency and leaves the descriptor as it is;
    bulk reconciliation makes no request and logs that nothing was found. *)
Theorem hooks_on_empty_descriptor {World}
    (request : Method → string → World → Response * World)
    (schedules : list (list nat)) (st : State World) :
  functions (descriptor st) = None ∨ functions (descriptor st) = Some [] →
  _removeReservedConcurrencyFromSLS st
  = (Return tt,
     log INFO (Finished "Remove reserved concurrency from Serverless config")
       (log INFO NoFunctionsInConfig
          (log INFO (Starting "Remove reserved concurrency from Serverless config") st)))
  ∧ _removeReservedConcurrencyFromAws request schedules st
    = (Return tt,
       log INFO (Finished "Remove reserved concurrency from AWS for all functions")
         (log INFO NoFunctionsInAws
            (log INFO (Starting "Remove reserved concurrency from AWS for all functions")
               st))).
Proof.
  intros Hempty.
  unfold _removeReservedConcurrencyFromSLS, _removeReservedConcurrencyFromAws,
    _measureExecutionTime.
  destruct st as [[svc stg fs] w q l]. simpl in *.
  destruct Hempty as [-> | ->]; done.
Qed.

Lemma hooks_on_empty_descriptor_witness :
  let st := initial {| service := "svc"; stage := "dev"; functions := None |}
                    six_deployed in
  _removeReservedConcurrencyFromSLS st
  = (Return tt,
     log INFO (Finished "Remove reserved concurrency from Serverless config")
       (log INFO NoFunctionsInConfig
          (log INFO (Starting "Remove reserved concurrency from Serverless config") st)))
  ∧ _removeReservedConcurrencyFromAws lambda_request [] st
    = (Return tt,
       log INFO (Finished "Remove reserved concurrency from AWS for all functions")
         (log INFO NoFunctionsInAws
            (log INFO (Starting "Remove reserved concurrency from AWS for all functions")
               st))).
Proof.
  apply (hooks_on_empty_descriptor lambda_request []
           (initial {| service := "svc"; stage := "dev"; functions := None |}
                    six_deployed)).
  left. reflexivity.
Defined.

(** ** Construction and the hooks *)

(** X5. Construction touches nothing: the descriptor, the remote world and
    the requests are as before, and the log gains one INFO line, which names
    the stage as it is written. The six extension points of a
    development-like stage are six different keys; any other stage has none. *)
Theorem constructor_effects {World} (opts : ServerlessOptions) (st : State World) :
  let out := constructor opts st in
  descriptor out.2 = descriptor st
  ∧ remote out.2 = remote st
  ∧ requests out.2 = requests st
  ∧ options out.1 = opts
  ∧ logged out.2
    = logged st ++
      [(INFO, if _isDevelopmentStage (stage (descriptor st))
              then DevelopmentStageDetected (stage (descriptor st))
              else ProductionStageDetected (stage (descriptor st)))]
  ∧ size (hooks out.1) = if _isDevelopmentStage (stage (descriptor st)) then 6 else 0.
Proof.
  unfold constructor.
  destruct (_isDevelopmentStage (stage (descriptor st))); simpl;
    repeat split; try done; by vm_compute.
Qed.

Lemma development_hooks_lookup {World} (opts : ServerlessOptions) (st : State World) :
  _isDevelopmentStage (stage (descriptor st)) = true →
  (∀ ep, ep ∈ before_extension_points →
         hooks (constructor opts st).1 !! ep = Some removeReservedConcurrencyFromSLS)
  ∧ hooks (constructor opts st).1 !! "after:aws:deploy:deploy:updateStack"
    = Some removeReservedConcurrencyFromAws
  ∧ hooks (constructor opts st).1 !! "after:deploy:function:deploy"
    = Some removeReservedConcurrencyFromAwsForFunction.
Proof.
  intros Hdev. unfold constructor. rewrite Hdev. simpl.
  split; [|split; by vm_compute].
  intros ep Hep. unfold before_extension_points in Hep.
  repeat (apply elem_of_cons in Hep as [->|Hep]; [by vm_compute|]).
  by apply elem_of_nil in Hep.
Qed.

Lemma SLS_hook_strips {World} (st : State World) :
  (_removeReservedConcurrencyFromSLS st).1 = Return tt
  ∧ requests (_removeReservedConcurrencyFromSLS st).2 = requests st
  ∧ remote (_removeReservedConcurrencyFromSLS st).2 = remote st
  ∧ functions (descriptor (_removeReservedConcurrencyFromSLS st).2)
    = fmap (M := option) (fmap (M := list) stripped) (functions (descriptor st)).
Proof.
  unfold _removeReservedConcurrencyFromSLS, _measureExecutionTime,
    _processServerlessConfigFunctions.
  set (st0 := log INFO (Starting _) st).
  assert (Hf : functions (descriptor st0) = functions (descriptor st)) by done.
  destruct (functions (descriptor st)) as [fs'|] eqn:Efs; rewrite Hf.
  - destruct (forEach_entry_spec fs' 0 st0) as (Heq & Hd & Hr & Hq).
    rewrite Heq. simpl. unfold _logServerlessConfigResult. simpl.
    destruct (0 <? _); simpl; rewrite Hr, Hq; done.
  - simpl. by rewrite Efs.
Qed.

(** X6. For a development-like stage, firing any of the four extension
    points that precede packaging and deployment leaves no function of the
    descriptor with a reserved concurrency, makes no remote request and
    resolves; the two extension points after a deployment run the bulk and
    the single-function reconciliation. This holds in whatever state the
    descriptor is when the host fires them. *)
Theorem development_stage_lifecycle {World}
    (request : Method → string → World → Response * World)
    (opts : ServerlessOptions) (st : State World) :
  _isDevelopmentStage (stage (descriptor st)) = true →
  let plugin := (constructor opts st).1 in
  (∀ ep schedules (st' : State World),
     ep ∈ before_extension_points →
     let out := fire request plugin ep schedules st' in
     out.1 = Return tt
     ∧ requests out.2 = requests st'
     ∧ remote out.2 = remote st'
     ∧ ∀ fs, functions (descriptor out.2) = Some fs →
             Forall (λ e, ¬ has_reservedConcurrency e.2) fs)
  ∧ (∀ schedules (st' : State World),
       fire request plugin "after:aws:deploy:deploy:updateStack" schedules st'
       = _removeReservedConcurrencyFromAws request schedules st')
  ∧ (∀ schedules (st' : State World),
       fire request plugin "after:deploy:function:deploy" schedules st'
       = _removeReservedConcurrencyFromAwsForFunction request opts st').
Proof.
  intros Hdev plugin.
  destruct (development_hooks_lookup opts st Hdev) as (Hbefore & Hbulk & Hsingle).
  assert (Hopts : options plugin = opts).
  { unfold plugin, constructor. by destruct (_isDevelopmentStage _). }
  split; [|split].
  - intros ep schedules st' Hep out. unfold out, fire. fold plugin in Hbefore.
    rewrite (Hbefore ep Hep). simpl.
    destruct (SLS_hook_strips st') as (Hr & Hq & Hw & Hf).
    repeat split; try done.
    intros fs Hfs. rewrite Hf in Hfs.
    destruct (functions (descriptor st')) as [fs0|]; [|done].
    injection Hfs as <-. apply Forall_fmap, Forall_forall. intros e _.
    unfold has_reservedConcurrency, stripped. simpl.
    rewrite lookup_delete_eq. by intros [? ?].
  - intros schedules st'. unfold fire. fold plugin in Hbulk. by rewrite Hbulk.
  - intros schedules st'. unfold fire. fold plugin in Hsingle.
    rewrite Hsingle. simpl. by rewrite Hopts.
Qed.

Lemma development_stage_lifecycle_witness :
  let plugin := (constructor {| function := Some "hello" |}
                   (warm_state "Feature-XYZ")).1 in
  (∀ ep schedules (st' : State Lambda),
     ep ∈ before_extension_points →
     let out := fire lambda_request plugin ep schedules st' in
     out.1 = Return tt
     ∧ requests out.2 = requests st'
     ∧ remote out.2 = remote st'
     ∧ ∀ fs, functions (descriptor out.2) = Some fs →
             Forall (λ e, ¬ has_reservedConcurrency e.2) fs)
  ∧ (∀ schedules (st' : State Lambda),
       fire lambda_request plugin "after:aws:deploy:deploy:updateStack" schedules st'
       = _removeReservedConcurrencyFromAws lambda_request schedules st')
  ∧ (∀ schedules (st' : State Lambda),
       fire lambda_request plugin "after:deploy:function:deploy" schedules st'
       = _removeReservedConcurrencyFromAwsForFunction lambda_request
           {| function := Some "hello" |} st').
Proof.
  apply (development_stage_lifecycle lambda_request {| function := Some "hello" |}
           (warm_state "Feature-XYZ")).
  reflexivity.
Defined.

(** ** Remote reconciliation: the requests and the log of a run *)

Lemma count_fmap {A B} (p : B → bool) (g : A → B) (l : list A) :
  count p (g <$> l) = count (λ x, p (g x)) l.
Proof.
  unfold count. induction l as [|x l IH]; [done|].
  rewrite fmap_cons. simpl. by rewrite IH.
Qed.

Lemma count_middle {A} (p : A → bool) (pre post : list A) (x : A) :
  count p (pre ++ x :: post) = count p pre + (if p x then 1 else 0) + count p post.
Proof. unfold count. rewrite sum_list_with_app. simpl. lia. Qed.

Lemma count_none {A} (p : A → bool) (l : list A) :
  Forall (λ x, p x = false) l → count p l = 0.
Proof.
  unfold count. induction 1 as [|x l Hx _ IH]; [done|]. simpl. by rewrite Hx, IH.
Qed.

Lemma snoc_eq_middle {A} (l before after : list A) (r x : A) :
  l ++ [r] = before ++ x :: after →
  (after = [] ∧ x = r ∧ before = l)
  ∨ ∃ after', after = after' ++ [r] ∧ l = before ++ x :: after'.
Proof.
  destruct after as [|y after' _] using rev_ind; intros H.
  - left. apply app_inj_tail in H as [-> ->]. done.
  - right. exists after'.
    change (before ++ x :: after' ++ [y]) with (before ++ (x :: after') ++ [y]) in H.
    rewrite app_assoc in H. apply app_inj_tail in H as [-> ->]. done.
Qed.

Lemma deletions_follow_fetches_nil : deletions_follow_fetches [].
Proof. intros before r after H. by destruct before. Qed.

Lemma deletions_follow_fetches_snoc (l : list Request) (r : Request) :
  deletions_follow_fetches l →
  (deletion r = true →
   ∃ r', r' ∈ l ∧ fetched_with r' = true ∧ FunctionName r' = FunctionName r) →
  deletions_follow_fetches (l ++ [r]).
Proof.
  intros Hl Hr before x after Heq Hx.
  apply snoc_eq_middle in Heq as [(-> & -> & ->) | (after' & -> & ->)].
  - by apply Hr.
  - by eapply Hl.
Qed.

Lemma deletions_follow_fetches_app (l1 l2 : list Request) :
  deletions_follow_fetches l1 → deletions_follow_fetches l2 →
  deletions_follow_fetches (l1 ++ l2).
Proof.
  intros H1 H2. induction l2 as [|r l2 IH] using rev_ind.
  - by rewrite app_nil_r.
  - rewrite app_assoc. apply deletions_follow_fetches_snoc.
    + apply IH. intros before x after Heq Hx.
      destruct (H2 before x (after ++ [r])) as (r' & Hr' & H');
        [by rewrite Heq, <- app_assoc | done | by exists r'].
    + intros Hr. destruct (H2 l2 r []) as (r' & Hr' & H'); [done | done |].
      exists r'. rewrite elem_of_app. by auto.
Qed.

Section Audit.
Context {World : Type}.
Variable request : Method → string → World → Response * World.
Implicit Types (st : State World) (t : Task) (ts : list Task) (batch : Functions).

Lemma start_batch_logged batch st :
  ∃ newlog, logged (start_batch batch st).2 = logged st ++ newlog
            ∧ Forall (λ entry, is_error entry = false) newlog.
Proof.
  revert st. induction batch as [|[name config] batch IH]; intros st.
  - exists []. by rewrite app_nil_r.
  - simpl. unfold _processAwsFunction.
    destruct (_shouldSkipFunction (_getFunctionName name st)).
    + destruct (IH (log INFO (SkippingWarmUp (_getFunctionName name st)) st))
        as (newlog & Hl & Hall).
      destruct (start_batch batch _) as [ts st']. simpl in *.
      exists ((INFO, SkippingWarmUp (_getFunctionName name st)) :: newlog).
      split; [by rewrite Hl, <- app_assoc | by constructor].
    + destruct (IH st) as (newlog & Hl & Hall).
      destruct (start_batch batch st) as [ts st']. simpl in *. by exists newlog.
Qed.

Lemma audit_inv_start batch st :
  audit_inv st batch (start_batch batch st).1 (start_batch batch st).2.
Proof.
  destruct (start_batch_spec batch st) as (Hd & Hq & Hr & Hts).
  destruct (start_batch_logged batch st) as (newlog & Hl & Hinfo).
  split; [done|]. rewrite Hts. split.
  { apply Forall_fmap, Forall_forall. intros e He. simpl.
    destruct (skips st e); simpl; [done|]. by exists e. }
  exists [], newlog. rewrite app_nil_r.
  split; [done|]. split; [done|]. split; [constructor|]. split.
  { eapply Forall_impl; [exact Hinfo|]. intros entry H H'. congruence. }
  split; [apply deletions_follow_fetches_nil|]. split.
  { intros fn aws Hin. apply list_elem_of_fmap in Hin as (e & He & _).
    by destruct (skips st e). }
  rewrite !count_fmap. split; [|split].
  - simpl. apply count_ext. intros e. by destruct (skips st e).
  - simpl. apply count_none, Forall_forall. intros e _. by destruct (skips st e).
  - rewrite (count_none _ _ Hinfo). clear.
    induction batch as [|e batch IH]; [done|]. rewrite fmap_cons. simpl.
    rewrite <- IH. by destruct (skips st e).
Qed.

Lemma elem_of_middle_replace {A} (x : A) (pre post : list A) (t t' : A) :
  x ∈ pre ++ t' :: post → x = t' ∨ x ∈ pre ++ t :: post.
Proof. rewrite !elem_of_app, !elem_of_cons. intros [H|[H|H]]; auto. Qed.

Lemma task_of_middle st0 batch pre t t' post :
  Forall (task_of st0 batch) (pre ++ t :: post) → task_of st0 batch t' →
  Forall (task_of st0 batch) (pre ++ t' :: post).
Proof. rewrite !Forall_app, !Forall_cons. tauto. Qed.

Lemma audit_inv_resume st0 batch pre t post st :
  audit_inv st0 batch (pre ++ t :: post) st →
  audit_inv st0 batch (pre ++ (resume request t st).1 :: post)
            (resume request t st).2.
Proof.
  intros (Hd & Htasks & new & newlog & Hq & Hl & Htg & Hnm & Hj & Hdel & Hf & Hdl & Herr).
  assert (Ht : task_of st0 batch t).
  { apply Forall_app in Htasks as [_ H]. by apply Forall_cons in H as [H _]. }
  rewrite count_middle in Hf, Hdl. rewrite sum_list_with_middle in Herr.
  destruct t as [r|fn [aws|aws]].
  - rewrite resume_Returned. simpl. split; [done|]. split; [done|].
    exists new, newlog. rewrite !count_middle, sum_list_with_middle. done.
  - destruct Ht as (e & He & -> & Haws). simpl in Haws. subst aws.
    simpl in Hf, Hdl, Herr. simpl. unfold settle_request.
    destruct (request getFunctionConfiguration (_getFunctionName e.1 st0) (remote st))
      as [[msg|[n|]] w]; simpl.
    + split; [done|]. split; [by eapply task_of_middle|].
      eexists (new ++ [_]), (newlog ++ [_]). simpl.
      split; [by rewrite Hq, <- app_assoc|]. split; [by rewrite Hl, <- app_assoc|].
      rewrite !Forall_app, !count_snoc, !count_middle, sum_list_with_middle. simpl.
      split; [split; [done|]; constructor; [by exists e | constructor]|].
      split; [split; [done|]; constructor; [|constructor]; intros _; by exists e, msg|].
      split; [by apply deletions_follow_fetches_snoc|].
      split; [|unfold errored_by in *; simpl in *; lia].
      intros fn' aws' Hin. eapply elem_of_middle_replace in Hin as [Hin|Hin]; [done|].
      destruct (Hdel fn' aws' Hin) as (r' & Hr' & H'). exists r'.
      rewrite elem_of_app. by auto.
    + split; [done|].
      split; [eapply task_of_middle; [exact Htasks | by exists e]|].
      eexists (new ++ [_]), (newlog ++ [_]). simpl.
      split; [by rewrite Hq, <- app_assoc|]. split; [by rewrite Hl, <- app_assoc|].
      rewrite !Forall_app, !count_snoc, !count_middle, sum_list_with_middle. simpl.
      split; [split; [done|]; constructor; [by exists e | constructor]|].
      split; [split; [done|]; constructor; [|constructor]; by intros ?|].
      split; [by apply deletions_follow_fetches_snoc|].
      split; [|unfold errored_by in *; simpl in *; lia].
      intros fn' aws' Hin. eapply elem_of_middle_replace in Hin as [Hin|Hin].
      * injection Hin as -> ->. eexists. rewrite elem_of_app, list_elem_of_singleton.
        split; [right; reflexivity | done].
      * destruct (Hdel fn' aws' Hin) as (r' & Hr' & H'). exists r'.
        rewrite elem_of_app. by auto.
    + split; [done|]. split; [by eapply task_of_middle|].
      eexists (new ++ [_]), newlog. simpl.
      split; [by rewrite Hq, <- app_assoc|]. split; [done|].
      rewrite !Forall_app, !count_snoc, !count_middle, sum_list_with_middle. simpl.
      split; [split; [done|]; constructor; [by exists e | constructor]|].
      split; [done|].
      split; [by apply deletions_follow_fetches_snoc|].
      split; [|unfold errored_by in *; simpl in *; lia].
      intros fn' aws' Hin. eapply elem_of_middle_replace in Hin as [Hin|Hin]; [done|].
      destruct (Hdel fn' aws' Hin) as (r' & Hr' & H'). exists r'.
      rewrite elem_of_app. by auto.
  - destruct Ht as (e & He & -> & Haws). simpl in Haws. subst aws.
    simpl in Hf, Hdl, Herr.
    assert (Hjust : ∃ r', r' ∈ new ∧ fetched_with r' = true
                          ∧ FunctionName r' = _getFunctionName e.1 st0).
    { eapply Hdel. rewrite elem_of_app, elem_of_cons. right; left; reflexivity. }
    simpl. unfold settle_request.
    destruct (request deleteFunctionConcurrency (_getFunctionName e.1 st0) (remote st))
      as [[msg|v] w]; simpl.
    + split; [done|]. split; [by eapply task_of_middle|].
      eexists (new ++ [_]), (newlog ++ [_]). simpl.
      split; [by rewrite Hq, <- app_assoc|]. split; [by rewrite Hl, <- app_assoc|].
      rewrite !Forall_app, !count_snoc, !count_middle, sum_list_with_middle. simpl.
      split; [split; [done|]; constructor; [by exists e | constructor]|].
      split; [split; [done|]; constructor; [|constructor]; intros _; by exists e, msg|].
      split; [by apply deletions_follow_fetches_snoc|].
      split; [|unfold errored_by in *; simpl in *; lia].
      intros fn' aws' Hin. eapply elem_of_middle_replace in Hin as [Hin|Hin]; [done|].
      destruct (Hdel fn' aws' Hin) as (r' & Hr' & H'). exists r'.
      rewrite elem_of_app. by auto.
    + split; [done|]. split; [by eapply task_of_middle|].
      eexists (new ++ [_]), (newlog ++ [_]). simpl.
      split; [by rewrite Hq, <- app_assoc|]. split; [by rewrite Hl, <- app_assoc|].
      rewrite !Forall_app, !count_snoc, !count_middle, sum_list_with_middle. simpl.
      split; [split; [done|]; constructor; [by exists e | constructor]|].
      split; [split; [done|]; constructor; [|constructor]; by intros ?|].
      split; [by apply deletions_follow_fetches_snoc|].
      split; [|unfold errored_by in *; simpl in *; lia].
      intros fn' aws' Hin. eapply elem_of_middle_replace in Hin as [Hin|Hin]; [done|].
      destruct (Hdel fn' aws' Hin) as (r' & Hr' & H'). exists r'.
      rewrite elem_of_app. by auto.
Qed.

Lemma count_Returned (p : Task → bool) (rs : list ProcessingResult) :
  (∀ r, p (Returned r) = false) → count p (Returned <$> rs) = 0.
Proof.
  intros Hp. apply count_none, Forall_fmap, Forall_forall. intros r _. apply Hp.
Qed.

Lemma targets_mono st0 st (fs fs' : Functions) (r : Request) :
  descriptor st = descriptor st0 → (∀ e, e ∈ fs → e ∈ fs') →
  targets st fs r → targets st0 fs' r.
Proof.
  intros Hd Hsub (e & He & Hr). exists e. split; [by apply Hsub|].
  rewrite Hr. by apply getFunctionName_descriptor.
Qed.

Lemma names_function_mono (fs fs' : Functions) (entry : LogEntry) :
  (∀ e, e ∈ fs → e ∈ fs') → names_function fs entry → names_function fs' entry.
Proof.
  intros Hsub H Herr. destruct (H Herr) as (e & msg & He & ->).
  exists e, msg. split; [by apply Hsub | done].
Qed.

(** What one batch adds to the requests and to the log. *)
Lemma audit_batch batch schedule st :
  let out := Promise_all request schedule (start_batch batch st).1
                         (start_batch batch st).2 in
  descriptor out.2 = descriptor st
  ∧ ∃ new newlog,
      requests out.2 = requests st ++ new
      ∧ logged out.2 = logged st ++ newlog
      ∧ Forall (targets st batch) new
      ∧ Forall (names_function batch) newlog
      ∧ deletions_follow_fetches new
      ∧ count fetch new = count (λ e, negb (skips st e)) batch
      ∧ count deletion new = count fetched_with new
      ∧ count is_error newlog = sum_list_with errorCount out.1.
Proof.
  intros out.
  pose proof (Promise_all_invariant request (audit_inv st batch)
                (audit_inv_resume st batch) schedule _ _
                (audit_inv_start batch st)) as H.
  fold out in H.
  destruct H as (Hd & _ & new & newlog & Hq & Hl & Htg & Hnm & Hj & _ & Hf & Hdl & Herr).
  rewrite count_Returned in Hf, Hdl by done.
  unfold errored_by in Herr. rewrite sum_list_with_Returned in Herr.
  split; [done|]. exists new, newlog. repeat split; try done; lia.
Qed.

Lemma audit_run_inv_batch st0 done batch schedule acc st :
  audit_run_inv st0 done acc st →
  audit_run_inv st0 (done ++ batch)
    (add_results acc
       (Promise_all request schedule (start_batch batch st).1
                    (start_batch batch st).2).1)
    (Promise_all request schedule (start_batch batch st).1
                 (start_batch batch st).2).2.
Proof.
  intros (Hd & new & newlog & Hq & Hl & Htg & Hnm & Hj & Hf & Hdl & Herr).
  destruct (audit_batch batch schedule st)
    as (Hd' & new' & newlog' & Hq' & Hl' & Htg' & Hnm' & Hj' & Hf' & Hdl' & Herr').
  split; [congruence|]. exists (new ++ new'), (newlog ++ newlog').
  rewrite Hq', Hq, Hl', Hl, !app_assoc, !Forall_app, !count_app,
    add_results_errorCount.
  assert (Hc : count (λ e, negb (skips st e)) batch
               = count (λ e, negb (skips st0 e)) batch).
  { apply count_ext. intros e. by rewrite (skips_descriptor st0 st e Hd). }
  repeat split; try done; try lia.
  - eapply Forall_impl; [exact Htg|]. intros r.
    apply targets_mono; [done|]. intros e He. rewrite elem_of_app. by left.
  - eapply Forall_impl; [exact Htg'|]. intros r.
    apply targets_mono; [done|]. intros e He. rewrite elem_of_app. by right.
  - eapply Forall_impl; [exact Hnm|]. intros r.
    apply names_function_mono. intros e He. rewrite elem_of_app. by left.
  - eapply Forall_impl; [exact Hnm'|]. intros r.
    apply names_function_mono. intros e He. rewrite elem_of_app. by right.
  - by apply deletions_follow_fetches_app.
Qed.

(** What a whole run adds to the requests and to the log. *)
Lemma reconcile_audit entries schedules st :
  audit_run_inv st entries
    (_processAwsFunctionsInBatches request entries schedules st).1
    (_processAwsFunctionsInBatches request entries schedules st).2.
Proof.
  rewrite processAwsFunctionsInBatches_run.
  rewrite <- (consecutive_batches_join entries) at 1.
  apply (run_batches_invariant request (audit_run_inv st) (audit_run_inv_batch st)
           _ schedules []).
  split; [done|]. exists [], []. rewrite !app_nil_r.
  repeat split; try done. apply deletions_follow_fetches_nil.
Qed.

Lemma request_kinds (l : list Request) :
  length l = count fetch l + count deletion l
  ∧ count fetched_with l ≤ count fetch l.
Proof.
  unfold count. induction l as [|[m n r] l [IH1 IH2]]; [done|].
  cbn [length sum_list_with]. unfold fetch, deletion, fetched_with in *.
  cbn [method response].
  destruct m, r as [msg|[v|]]; lia.
Qed.

End Audit.

(** X7. A bulk run makes one fetch for each function that is not skipped
    and one deletion for each fetch that reported a reserved concurrency, so
    at most two requests per function, whatever the provider answers and
    however the requests of a batch interleave. *)
Theorem bulk_requests_accounting {World}
    (request : Method → string → World → Response * World)
    (entries : Functions) (schedules : list (list nat)) (st : State World) :
  let out := _processAwsFunctionsInBatches request entries schedules st in
  ∃ new,
    requests out.2 = requests st ++ new
    ∧ count fetch new = count (λ e, negb (skips st e)) entries
    ∧ count deletion new = count fetched_with new
    ∧ length new ≤ 2 * length entries.
Proof.
  intros out.
  destruct (reconcile_audit request entries schedules st)
    as (_ & new & newlog & Hq & _ & _ & _ & _ & Hf & Hdl & _).
  exists new. repeat split; try done.
  destruct (request_kinds new) as [Hlen Hle].
  pose proof (count_le_length (λ e, negb (skips st e)) entries). lia.
Qed.

(** X8. A bulk run never deletes blindly and never reaches outside the
    descriptor: every request names the remote identifier of a function of
    the descriptor, and every deletion comes after a fetch of the same
    function that reported a reserved concurrency. The descriptor itself is
    left as it is. *)
Theorem bulk_deletions_follow_fetches {World}
    (request : Method → string → World → Response * World)
    (entries : Functions) (schedules : list (list nat)) (st : State World) :
  let out := _processAwsFunctionsInBatches request entries schedules st in
  descriptor out.2 = descriptor st
  ∧ ∃ new,
      requests out.2 = requests st ++ new
      ∧ Forall (targets st entries) new
      ∧ deletions_follow_fetches new.
Proof.
  intros out.
  destruct (reconcile_audit request entries schedules st)
    as (Hd & new & newlog & Hq & _ & Htg & _ & Hj & _).
  split; [done|]. by exists new.
Qed.

Lemma count_cons {A} (p : A → bool) (x : A) (l : list A) :
  count p (x :: l) = (if p x then 1 else 0) + count p l.
Proof. reflexivity. Qed.

Lemma count_nil {A} (p : A → bool) : count p [] = 0.
Proof. reflexivity. Qed.

(** X9. The log of the bulk hook shows every failure: one ERROR line for
    each rejected request, under the logical name of a function of the
    descriptor, and one ERROR summary line when at least one request was
    rejected; the hook itself always resolves. *)
Theorem bulk_hook_logs_failures {World}
    (request : Method → string → World → Response * World)
    (schedules : list (list nat)) (st : State World) :
  let out := _removeReservedConcurrencyFromAws request schedules st in
  let entries := default [] (functions (descriptor st)) in
  out.1 = Return tt
  ∧ descriptor out.2 = descriptor st
  ∧ ∃ new newlog,
      requests out.2 = requests st ++ new
      ∧ logged out.2 = logged st ++ newlog
      ∧ count is_error newlog
        = count rejected new + (if 0 <? count rejected new then 1 else 0)
      ∧ Forall (λ entry, is_error entry = true →
                  (∃ e message, e ∈ entries
                                ∧ entry = (ERROR, ErrorRemovingFromAws e.1 message))
                  ∨ entry = (ERROR, FailedToRemoveCount (count rejected new)))
               newlog.
Proof.
  intros out entries. unfold out, _removeReservedConcurrencyFromAws,
    _measureExecutionTime.
  set (st0 := log INFO (Starting _) st).
  change (default [] (functions (descriptor st0))) with entries.
  destruct (reconcile_audit request entries schedules st0)
    as (Hd & new & newlog & Hq & Hl & _ & Hnm & _ & _ & _ & Herr).
  destruct (reconcile_ledger request entries schedules st0)
    as (_ & new' & Hq' & _ & _ & He & _).
  assert (new' = new) as -> by (rewrite Hq in Hq'; by apply app_inv_head in Hq').
  destruct (_processAwsFunctionsInBatches request entries schedules st0)
    as [[m e] st1]. simpl in *. rewrite He in Herr |- *. clear He e.
  remember (count rejected new) as k eqn:Ek.
  assert (Hnm' : Forall (λ entry, is_error entry = true →
                  (∃ e message, e ∈ entries
                                ∧ entry = (ERROR, ErrorRemovingFromAws e.1 message))
                  ∨ entry = (ERROR, FailedToRemoveCount k))
               newlog).
  { eapply Forall_impl; [exact Hnm|]. intros entry H Hentry. left. by apply H. }
  unfold _logAwsResult. simpl.
  destruct m as [|m], k as [|k]; simpl;
    (split; [done|]); (split; [done|]); exists new; eexists;
    (split; [done|]);
    (split; [rewrite Hl; simpl; rewrite <- !app_assoc; reflexivity|]);
    rewrite <- Ek, ?count_app, ?count_cons, ?count_nil, Herr; simpl;
    (split; [lia|]);
    repeat (first [apply Forall_app; split | apply Forall_cons; split
                  | apply Forall_nil]);
    first [done | intros _; by right].
Qed.

(** ** The single form and the bulk form *)

Section SingleFacts.
Context {World : Type}.
Variable request : Method → string → World → Response * World.
Implicit Types (st : State World) (t : Task).

Lemma resume_thrice t st :
  resume request (resume request (resume request t st).1 (resume request t st).2).1
         (resume request (resume request t st).1 (resume request t st).2).2
  = resume request (resume request t st).1 (resume request t st).2.
Proof.
  destruct (resume_twice request t st) as [r Hr].
  destruct (resume request (resume request t st).1 (resume request t st).2)
    as [t2 st2]. simpl in *. by subst t2.
Qed.

Lemma drain_single_resumed t st :
  drain request [(resume request t st).1] (resume request t st).2
  = drain request [t] st.
Proof.
  simpl. pose proof (resume_thrice t st) as H3.
  destruct (resume request t st) as [t1 st1]. simpl in *.
  destruct (resume request t1 st1) as [t2 st2]. simpl in *.
  by rewrite H3.
Qed.

Lemma advance_single i t st :
  advance request i [t] st = ([t], st)
  ∨ advance request i [t] st = ([(resume request t st).1], (resume request t st).2).
Proof.
  unfold advance. destruct i as [|i]; simpl; [right|by left].
  by destruct (resume request t st).
Qed.

Lemma Promise_all_single schedule t st :
  Promise_all request schedule [t] st = drain request [t] st.
Proof.
  unfold Promise_all. revert t st.
  induction schedule as [|i schedule IH]; intros t st; [done|].
  cbn [interleave]. destruct (advance_single i t st) as [-> | ->].
  - apply IH.
  - rewrite IH. apply drain_single_resumed.
Qed.

Lemma singleton_run name config schedules st :
  _processAwsFunctionsInBatches request [(name, config)] schedules st
  = _processSingleAwsFunction request name st.
Proof.
  unfold _processAwsFunctionsInBatches, _processSingleAwsFunction. simpl.
  destruct (_processAwsFunction name st) as [t st0].
  rewrite Promise_all_single. simpl.
  destruct (resume request t st0) as [t1 st1].
  destruct (resume request t1 st1) as [t2 st2]. simpl.
  unfold add_results. simpl. by destruct (result_of t2).
Qed.

End SingleFacts.

(** ** What is logged does not steer a run *)

Section LogFrame.
Context {World : Type}.
Variable request : Method → string → World → Response * World.
Implicit Types (st : State World) (t : Task) (ts : list Task).

Lemma same_but_log_refl st : same_but_log st st.
Proof. done. Qed.

Lemma same_but_log_trans st1 st2 st3 :
  same_but_log st1 st2 → same_but_log st2 st3 → same_but_log st1 st3.
Proof. intros (?&?&?) (?&?&?). repeat split; congruence. Qed.

Lemma same_but_log_sym st1 st2 : same_but_log st1 st2 → same_but_log st2 st1.
Proof. intros (?&?&?). repeat split; congruence. Qed.

Lemma same_but_log_log lvl m st : same_but_log (log lvl m st) st.
Proof. done. Qed.

Lemma settle_request_same m id st st' :
  same_but_log st st' →
  (settle_request request m id st).1 = (settle_request request m id st').1
  ∧ same_but_log (settle_request request m id st).2 (settle_request request m id st').2.
Proof.
  intros (Hd & Hr & Hq). unfold settle_request. rewrite Hr.
  destruct (request m id (remote st')) as [r w]. simpl.
  repeat split; simpl; congruence.
Qed.

Lemma resume_same t st st' :
  same_but_log st st' →
  (resume request t st).1 = (resume request t st').1
  ∧ same_but_log (resume request t st).2 (resume request t st').2.
Proof.
  intros Hs. destruct t as [r|fn [aws|aws]]; [done| |]; simpl.
  - destruct (settle_request_same getFunctionConfiguration aws st st' Hs) as [H1 H2].
    destruct (settle_request request getFunctionConfiguration aws st) as [r1 s1].
    destruct (settle_request request getFunctionConfiguration aws st') as [r2 s2].
    simpl in *. subst r2. by destruct r1 as [msg|[n|]].
  - destruct (settle_request_same deleteFunctionConcurrency aws st st' Hs) as [H1 H2].
    destruct (settle_request request deleteFunctionConcurrency aws st) as [r1 s1].
    destruct (settle_request request deleteFunctionConcurrency aws st') as [r2 s2].
    simpl in *. subst r2. by destruct r1 as [msg|v].
Qed.

Lemma start_batch_same (batch : Functions) st st' :
  same_but_log st st' →
  (start_batch batch st).1 = (start_batch batch st').1
  ∧ same_but_log (start_batch batch st).2 (start_batch batch st').2.
Proof.
  intros Hs.
  destruct (start_batch_spec batch st) as (Hd & Hq & Hr & Hts).
  destruct (start_batch_spec batch st') as (Hd' & Hq' & Hr' & Hts').
  destruct Hs as (Hsd & Hsr & Hsq). split.
  - rewrite Hts, Hts'. apply list_fmap_ext. intros i e _.
    by rewrite (skips_descriptor st' st e Hsd),
      (getFunctionName_descriptor st' st e.1 Hsd).
  - repeat split; congruence.
Qed.

Lemma drain_same ts st st' :
  same_but_log st st' →
  (drain request ts st).1 = (drain request ts st').1
  ∧ same_but_log (drain request ts st).2 (drain request ts st').2.
Proof.
  revert st st'. induction ts as [|t ts IH]; intros st st' Hs; [done|].
  simpl. destruct (resume_same t st st' Hs) as [H1 H2].
  destruct (resume request t st) as [t1 s1], (resume request t st') as [t1' s1'].
  simpl in *. subst t1'.
  destruct (resume_same t1 s1 s1' H2) as [H3 H4].
  destruct (resume request t1 s1) as [t2 s2], (resume request t1 s1') as [t2' s2'].
  simpl in *. subst t2'.
  destruct (IH s2 s2' H4) as [H5 H6].
  destruct (drain request ts s2) as [rs s3], (drain request ts s2') as [rs' s3'].
  simpl in *. by subst rs'.
Qed.

Lemma interleave_same schedule ts st st' :
  same_but_log st st' →
  (interleave request schedule ts st).1 = (interleave request schedule ts st').1
  ∧ same_but_log (interleave request schedule ts st).2
                 (interleave request schedule ts st').2.
Proof.
  revert ts st st'. induction schedule as [|i schedule IH]; intros ts st st' Hs; [done|].
  simpl. unfold advance. destruct (ts !! i) as [t|]; [|by apply IH].
  destruct (resume_same t st st' Hs) as [H1 H2].
  destruct (resume request t st) as [t1 s1], (resume request t st') as [t1' s1'].
  simpl in *. subst t1'. by apply IH.
Qed.

Lemma Promise_all_same schedule ts st st' :
  same_but_log st st' →
  (Promise_all request schedule ts st).1 = (Promise_all request schedule ts st').1
  ∧ same_but_log (Promise_all request schedule ts st).2
                 (Promise_all request schedule ts st').2.
Proof.
  intros Hs. unfold Promise_all.
  destruct (interleave_same schedule ts st st' Hs) as [H1 H2].
  destruct (interleave request schedule ts st) as [ts1 s1],
           (interleave request schedule ts st') as [ts1' s1'].
  simpl in *. subst ts1'. by apply drain_same.
Qed.

Lemma run_batches_same batches schedules acc st st' :
  same_but_log st st' →
  (run_batches request batches schedules acc st).1
  = (run_batches request batches schedules acc st').1
  ∧ same_but_log (run_batches request batches schedules acc st).2
                 (run_batches request batches schedules acc st').2.
Proof.
  revert schedules acc st st'.
  induction batches as [|batch batches IH]; intros schedules acc st st' Hs; [done|].
  simpl. destruct (start_batch_same batch st st' Hs) as [H1 H2].
  destruct (start_batch batch st) as [ts s1], (start_batch batch st') as [ts' s1'].
  simpl in *. subst ts'.
  destruct (Promise_all_same (hd [] schedules) ts s1 s1' H2) as [H3 H4].
  destruct (Promise_all request (hd [] schedules) ts s1) as [rs s2],
           (Promise_all request (hd [] schedules) ts s1') as [rs' s2'].
  simpl in *. subst rs'. by apply IH.
Qed.

Lemma bulk_same entries schedules st st' :
  same_but_log st st' →
  (_processAwsFunctionsInBatches request entries schedules st).1
  = (_processAwsFunctionsInBatches request entries schedules st').1
  ∧ same_but_log (_processAwsFunctionsInBatches request entries schedules st).2
                 (_processAwsFunctionsInBatches request entries schedules st').2.
Proof. rewrite !processAwsFunctionsInBatches_run. apply run_batches_same. Qed.

End LogFrame.

(** X10. The single form is the bulk form on one function. A bulk run over
    one function returns the counts and leaves the state that the
    single-function processing of it does, whatever the schedule; so, for a
    descriptor with one function, the bulk hook and the single-function hook
    aimed at that function make the same requests and leave the same remote
    world. *)
Theorem bulk_on_one_function_is_single {World}
    (request : Method → string → World → Response * World)
    (name : string) (config : FunctionConfig) (schedules : list (list nat))
    (st : State World) :
  name ≠ "" → functions (descriptor st) = Some [(name, config)] →
  _processAwsFunctionsInBatches request [(name, config)] schedules st
  = _processSingleAwsFunction request name st
  ∧ same_but_log
      (_removeReservedConcurrencyFromAws request schedules st).2
      (_removeReservedConcurrencyFromAwsForFunction request
         {| function := Some name |} st).2.
Proof.
  intros Hname Hfs. split; [apply singleton_run|].
  unfold _removeReservedConcurrencyFromAws,
    _removeReservedConcurrencyFromAwsForFunction, _measureExecutionTime,
    _validateFunctionName. simpl. rewrite Hfs. simpl.
  destruct name as [|c name]; [done|].
  set (fn := String c name).
  set (a := log INFO (Starting "Remove reserved concurrency from AWS for all functions") st).
  set (b := log INFO (Starting "Remove reserved concurrency from AWS for single function") st).
  rewrite <- (singleton_run request fn config schedules b).
  destruct (bulk_same request [(fn, config)] schedules a b) as [H1 H2]; [done|].
  destruct (_processAwsFunctionsInBatches request [(fn, config)] schedules a)
    as [ra sa],
    (_processAwsFunctionsInBatches request [(fn, config)] schedules b) as [rb sb].
  simpl in *. subst rb. destruct H2 as (Hd & Hr & Hq).
  unfold _logAwsResult, _logSingleFunctionResult.
  destruct (0 <? modifiedCount ra), (errorCount ra =? 0), (0 <? errorCount ra);
    by repeat split.
Qed.

Lemma bulk_on_one_function_is_single_witness :
  _processAwsFunctionsInBatches lambda_request
    [("hello", {["reservedConcurrency" := JsNumber 5]})] [[0; 0]]
    (initial (hello_service "dev") (warm_deployed "dev"))
  = _processSingleAwsFunction lambda_request "hello"
      (initial (hello_service "dev") (warm_deployed "dev"))
  ∧ same_but_log
      (_removeReservedConcurrencyFromAws lambda_request [[0; 0]]
         (initial (hello_service "dev") (warm_deployed "dev"))).2
      (_removeReservedConcurrencyFromAwsForFunction lambda_request
         {| function := Some "hello" |}
         (initial (hello_service "dev") (warm_deployed "dev"))).2.
Proof.
  apply (bulk_on_one_function_is_single lambda_request "hello"
           {["reservedConcurrency" := JsNumber 5]} [[0; 0]]
           (initial (hello_service "dev") (warm_deployed "dev"))).
  - discriminate.
  - reflexivity.
Defined.

(** X11. The single-function hook, given a function name, makes at most two
    requests, all for the remote identifier of that function, a deletion
    only after a fetch that reported a reserved concurrency; it logs one
    ERROR line for a rejected request and no other, leaves the descriptor
    as it is and resolves. *)
Theorem single_function_hook {World}
    (request : Method → string → World → Response * World)
    (name : string) (st : State World) :
  name ≠ "" →
  let out := _removeReservedConcurrencyFromAwsForFunction request
               {| function := Some name |} st in
  out.1 = Return tt
  ∧ descriptor out.2 = descriptor st
  ∧ ∃ new newlog,
      requests out.2 = requests st ++ new
      ∧ logged out.2 = logged st ++ newlog
      ∧ length new ≤ 2
      ∧ Forall (λ r, FunctionName r = _getFunctionName name st) new
      ∧ deletions_follow_fetches new
      ∧ count is_error newlog = count rejected new.
Proof.
  intros Hname out. unfold out, _removeReservedConcurrencyFromAwsForFunction,
    _measureExecutionTime, _validateFunctionName. simpl.
  destruct name as [|c name]; [done|].
  set (fn := String c name). set (st0 := log INFO (Starting _) st).
  rewrite <- (singleton_run request fn ∅ [] st0).
  destruct (reconcile_audit request [(fn, ∅)] [] st0)
    as (Hd & new & newlog & Hq & Hl & Htg & _ & Hj & Hf & Hdl & Herr).
  destruct (reconcile_ledger request [(fn, ∅)] [] st0)
    as (_ & new' & Hq' & _ & _ & He & _).
  assert (new' = new) as -> by (rewrite Hq in Hq'; by apply app_inv_head in Hq').
  destruct (request_kinds new) as [Hlen Hle].
  pose proof (count_le_length (λ e, negb (skips st0 e)) [(fn, ∅)]) as Hone.
  simpl in Hone.
  destruct (_processAwsFunctionsInBatches request [(fn, ∅)] [] st0)
    as [[m e] st1]. simpl in *. rewrite He in Herr. clear He.
  assert (Htg' : Forall (λ r, FunctionName r = _getFunctionName fn st) new).
  { eapply Forall_impl; [exact Htg|]. intros r (e0 & He0 & Hr).
    apply list_elem_of_singleton in He0 as ->. exact Hr. }
  unfold _logSingleFunctionResult. simpl.
  destruct (0 <? m); [|destruct (e =? 0)]; simpl;
    (split; [done|]); (split; [done|]); exists new; eexists;
    (split; [done|]);
    (split; [rewrite Hl; simpl; rewrite <- !app_assoc; reflexivity|]);
    rewrite ?count_app, ?count_cons, ?count_nil, Herr; simpl;
    repeat split; try done; lia.
Qed.

Lemma single_function_hook_witness :
  let out := _removeReservedConcurrencyFromAwsForFunction lambda_request
               {| function := Some "hello" |} (warm_state "dev") in
  out.1 = Return tt
  ∧ descriptor out.2 = descriptor (warm_state "dev")
  ∧ ∃ new newlog,
      requests out.2 = requests (warm_state "dev") ++ new
      ∧ logged out.2 = logged (warm_state "dev") ++ newlog
      ∧ length new ≤ 2
      ∧ Forall (λ r, FunctionName r = _getFunctionName "hello" (warm_state "dev")) new
      ∧ deletions_follow_fetches new
      ∧ count is_error newlog = count rejected new.
Proof.
  apply (single_function_hook lambda_request "hello" (warm_state "dev")).
  discriminate.
Defined.

(** X12. No hook ever fails the deployment: whatever is registered, whatever
    extension point the host fires and whatever the provider answers, the
    operation resolves; the failure branch of the timing wrapper is never
    taken. *)
Theorem hooks_always_resolve {World}
    (request : Method → string → World → Response * World)
    (plugin : Plugin) (extensionPoint : string) (schedules : list (list nat))
    (st : State World) :
  (fire request plugin extensionPoint schedules st).1 = Return tt.
Proof.
  unfold fire. destruct (hooks plugin !! extensionPoint) as [[| |]|]; simpl; [| | |done].
  - unfold _removeReservedConcurrencyFromSLS, _measureExecutionTime.
    destruct (functions _);
      by destruct (_processServerlessConfigFunctions _ _) as [[? ?] ?].
  - unfold _removeReservedConcurrencyFromAws, _measureExecutionTime.
    by destruct (_processAwsFunctionsInBatches _ _ _ _).
  - unfold _removeReservedConcurrencyFromAwsForFunction, _measureExecutionTime.
    destruct (_validateFunctionName _ _) as [[|] ?]; [|done].
    by destruct (_processSingleAwsFunction _ _ _).
Qed.

(** ** The descriptor's settings do not steer the reconciliation *)

Section NamesOnly.
Context {World : Type}.
Variable request : Method → string → World → Response * World.
Implicit Types (st : State World) (fs : Functions).

Lemma start_batch_names fs fs' st :
  fs.*1 = fs'.*1 → start_batch fs st = start_batch fs' st.
Proof.
  revert fs' st. induction fs as [|[name config] fs IH]; intros fs' st Hn.
  - destruct fs'; [done | discriminate].
  - destruct fs' as [|[name' config'] fs']; [discriminate|].
    rewrite !fmap_cons in Hn. simpl in Hn. injection Hn as -> Hn. simpl.
    destruct (_processAwsFunction name' st) as [t st1]. by rewrite (IH fs' st1 Hn).
Qed.

Lemma batches_loop_names fuel i fs fs' schedules acc st :
  fs.*1 = fs'.*1 →
  batches_loop request fuel i fs schedules acc st
  = batches_loop request fuel i fs' schedules acc st.
Proof.
  intros Hn. revert i schedules acc st.
  induction fuel as [|fuel IH]; intros i schedules acc st; [done|].
  cbn [batches_loop].
  assert (Hlen : length fs = length fs').
  { by rewrite <- (length_fmap fst fs), Hn, length_fmap. }
  rewrite Hlen. destruct (i <? length fs'); [|done].
  rewrite (start_batch_names (slice i (i + AWS_CONCURRENCY_BATCH_SIZE) fs)
             (slice i (i + AWS_CONCURRENCY_BATCH_SIZE) fs')).
  - destruct (start_batch _ st) as [ts st1].
    destruct (Promise_all request (hd [] schedules) ts st1) as [rs st2]. apply IH.
  - unfold slice. by rewrite !fmap_take, !fmap_drop, Hn.
Qed.

End NamesOnly.

(** X13. Remote reconciliation reads only the names of the descriptor's
    functions, never their settings: two mappings with the same names in
    the same order give the same run. So it does not matter whether
    descriptor mutation has already removed the field: the remote side is
    checked either way. *)
Theorem reconciliation_reads_names_only {World}
    (request : Method → string → World → Response * World)
    (fs fs' : Functions) (schedules : list (list nat)) (st : State World) :
  fs.*1 = fs'.*1 →
  _processAwsFunctionsInBatches request fs schedules st
  = _processAwsFunctionsInBatches request fs' schedules st.
Proof.
  intros Hn. unfold _processAwsFunctionsInBatches.
  assert (Hlen : length fs = length fs').
  { by rewrite <- (length_fmap fst fs), Hn, length_fmap. }
  rewrite Hlen. by apply batches_loop_names.
Qed.

Lemma reconciliation_reads_names_only_witness :
  _processAwsFunctionsInBatches lambda_request warm_functions [] (warm_state "dev")
  = _processAwsFunctionsInBatches lambda_request (stripped <$> warm_functions) []
      (warm_state "dev").
Proof.
  apply (reconciliation_reads_names_only lambda_request warm_functions
           (stripped <$> warm_functions) [] (warm_state "dev")).
  reflexivity.
Defined.

(** ** The sequential revision and the batched one *)

Section Sequential.
Context {World : Type}.
Variable request : Method → string → World → Response * World.
Implicit Types (st : State World) (batch entries : Functions).

Lemma settle_request_descriptor m id st :
  descriptor (settle_request request m id st).2 = descriptor st.
Proof. unfold settle_request. by destruct (request m id (remote st)). Qed.

Lemma for_of_entries_app (a b : Functions) m e st :
  Legacy.for_of_entries request (a ++ b) m e st
  = let '(m1, e1, st1) := Legacy.for_of_entries request a m e st in
    Legacy.for_of_entries request b m1 e1 st1.
Proof.
  revert m e st. induction a as [|[name config] a IH]; intros m e st; [done|].
  simpl. destruct (includes _ _); [apply IH|].
  destruct (settle_request request getFunctionConfiguration _ st) as [[msg|[n|]] st1];
    [apply IH | | apply IH].
  destruct (settle_request request deleteFunctionConcurrency _ _) as [[msg|v] st2];
    apply IH.
Qed.

(** One batch, its requests settling in the order of the batch, against the
    sequential loop over the same functions. *)
Lemma drain_sequential st0 batch m e st st' :
  descriptor st = descriptor st0 → same_but_log st st' →
  let ts := (λ e, if skips st0 e
                  then Returned {| modifiedCount := 0; errorCount := 0 |}
                  else Suspended e.1 (AwaitingConfiguration (_getFunctionName e.1 st0)))
            <$> batch in
  let out := drain request ts st in
  let seq := Legacy.for_of_entries request batch m e st' in
  seq.1.1 = m + sum_list_with modifiedCount out.1
  ∧ seq.1.2 = e + sum_list_with errorCount out.1
  ∧ same_but_log out.2 seq.2.
Proof.
  revert m e st st'.
  induction batch as [|[name config] batch IH]; intros m e st st' Hd Hs.
  { simpl. split; [lia|]. split; [lia | done]. }
  rewrite fmap_cons. cbn [drain Legacy.for_of_entries].
  assert (Hd' : descriptor st' = descriptor st0) by (destruct Hs; congruence).
  rewrite (getFunctionName_descriptor st0 st' name Hd').
  change (skips st0 (name, config))
    with (_shouldSkipFunction (_getFunctionName name st0)).
  change (includes (_getFunctionName name st0) "warmUp")
    with (_shouldSkipFunction (_getFunctionName name st0)).
  destruct (_shouldSkipFunction (_getFunctionName name st0)).
  - rewrite !resume_Returned.
    specialize (IH m e st (log INFO (SkippingWarmUp (_getFunctionName name st0)) st')
                  Hd Hs).
    cbv zeta in IH. destruct (drain request _ st) as [rs s3].
    destruct (Legacy.for_of_entries request batch m e _) as [[m' e'] sl].
    simpl in *. destruct IH as (-> & -> & H). split; [lia|]. split; [lia | done].
  - cbn [resume _checkAndRemoveReservedConcurrency].
    destruct (settle_request_same request getFunctionConfiguration
                (_getFunctionName name st0) st st' Hs) as [Hr1 Hs1].
    pose proof (settle_request_descriptor getFunctionConfiguration
                  (_getFunctionName name st0) st) as Hd1.
    rewrite Hd in Hd1.
    destruct (settle_request request getFunctionConfiguration _ st) as [r1 s1].
    destruct (settle_request request getFunctionConfiguration _ st') as [r1' s1'].
    simpl in Hr1, Hs1, Hd1. subst r1'.
    destruct r1 as [msg|[n|]].
    + rewrite resume_Returned.
      specialize (IH m (S e) (log ERROR (ErrorRemovingFromAws name msg) s1)
                    (log ERROR (ErrorRemovingFromAws name msg) s1') Hd1 Hs1).
      cbv zeta in IH. destruct (drain request _ _) as [rs s3].
      destruct (Legacy.for_of_entries request batch m (S e) _) as [[m' e'] sl].
      simpl in *. destruct IH as (-> & -> & H). split; [lia|]. split; [lia | done].
    + cbn [resume _checkAndRemoveReservedConcurrency].
      destruct (settle_request_same request deleteFunctionConcurrency
                  (_getFunctionName name st0)
                  (log INFO (RemovingFromAws (_getFunctionName name st0)) s1)
                  (log INFO (RemovingFromAws (_getFunctionName name st0)) s1') Hs1)
        as [Hr2 Hs2].
      pose proof (settle_request_descriptor deleteFunctionConcurrency
                    (_getFunctionName name st0)
                    (log INFO (RemovingFromAws (_getFunctionName name st0)) s1))
        as Hd2.
      simpl in Hd2. rewrite Hd1 in Hd2.
      destruct (settle_request request deleteFunctionConcurrency _
                  (log INFO _ s1)) as [r2 s2].
      destruct (settle_request request deleteFunctionConcurrency _
                  (log INFO _ s1')) as [r2' s2'].
      simpl in Hr2, Hs2, Hd2. subst r2'.
      destruct r2 as [msg|v].
      * specialize (IH m (S e) (log ERROR (ErrorRemovingFromAws name msg) s2)
                      (log ERROR (ErrorRemovingFromAws name msg) s2') Hd2 Hs2).
        cbv zeta in IH. destruct (drain request _ _) as [rs s3].
        destruct (Legacy.for_of_entries request batch m (S e) _) as [[m' e'] sl].
        simpl in *. destruct IH as (-> & -> & H). split; [lia|]. split; [lia | done].
      * specialize (IH (S m) e
                      (log INFO (RemovedFromAws (_getFunctionName name st0)) s2)
                      s2' Hd2 Hs2).
        cbv zeta in IH. destruct (drain request _ _) as [rs s3].
        destruct (Legacy.for_of_entries request batch (S m) e _) as [[m' e'] sl].
        simpl in *. destruct IH as (-> & -> & H). split; [lia|]. split; [lia | done].
    + rewrite resume_Returned.
      specialize (IH m e s1 s1' Hd1 Hs1).
      cbv zeta in IH. destruct (drain request _ _) as [rs s3].
      destruct (Legacy.for_of_entries request batch m e _) as [[m' e'] sl].
      simpl in *. destruct IH as (-> & -> & H). split; [lia|]. split; [lia | done].
Qed.

Lemma run_batches_sequential batches acc st st' :
  same_but_log st st' →
  let out := run_batches request batches [] acc st in
  let seq := Legacy.for_of_entries request (mjoin batches)
               (modifiedCount acc) (errorCount acc) st' in
  seq.1.1 = modifiedCount out.1
  ∧ seq.1.2 = errorCount out.1
  ∧ same_but_log out.2 seq.2.
Proof.
  revert acc st st'. induction batches as [|batch batches IH]; intros acc st st' Hs.
  { simpl. done. }
  cbn [run_batches mjoin list_join hd tl]. rewrite for_of_entries_app.
  destruct (start_batch_spec batch st) as (Hd & Hq & Hr & Hts).
  assert (Hs1 : same_but_log (start_batch batch st).2 st').
  { destruct Hs as (H1 & H2 & H3). repeat split; congruence. }
  pose proof (drain_sequential st batch (modifiedCount acc) (errorCount acc)
                (start_batch batch st).2 st' Hd Hs1) as Hb.
  cbv zeta in Hb. rewrite <- Hts in Hb.
  destruct (start_batch batch st) as [ts s1]. simpl in Hb.
  change (Promise_all request [] ts s1) with (drain request ts s1).
  destruct (drain request ts s1) as [rs s2].
  destruct (Legacy.for_of_entries request batch _ _ st') as [[m1 e1] sl].
  simpl in Hb. destruct Hb as (-> & -> & Hs2).
  specialize (IH (add_results acc rs) s2 sl Hs2). cbv zeta in IH.
  by rewrite add_results_modifiedCount, add_results_errorCount in IH.
Qed.

End Sequential.

(** X14. The batched revision, when the requests of each batch settle in
    the order of the batch, does what the earlier, sequential revision
    does: the same counts, the same requests in the same order and the
    same remote world, so the two differ in their logs only. Both bulk
    hooks resolve. *)
Theorem sequential_revision_agrees {World}
    (request : Method → string → World → Response * World)
    (entries : Functions) (st : State World) :
  (let out := _processAwsFunctionsInBatches request entries [] st in
   let seq := Legacy.for_of_entries request entries 0 0 st in
   seq.1.1 = modifiedCount out.1
   ∧ seq.1.2 = errorCount out.1
   ∧ same_but_log out.2 seq.2)
  ∧ (Legacy._removeReservedConcurrencyFromAws request st).1 = Return tt
  ∧ same_but_log (_removeReservedConcurrencyFromAws request [] st).2
                 (Legacy._removeReservedConcurrencyFromAws request st).2.
Proof.
  assert (Hrun : ∀ fs (a b : State World), same_but_log a b →
    let out := _processAwsFunctionsInBatches request fs [] a in
    let seq := Legacy.for_of_entries request fs 0 0 b in
    seq.1.1 = modifiedCount out.1 ∧ seq.1.2 = errorCount out.1
    ∧ same_but_log out.2 seq.2).
  { intros fs a b Hab. cbv zeta. rewrite processAwsFunctionsInBatches_run.
    pose proof (run_batches_sequential request
                  (consecutive_batches AWS_CONCURRENCY_BATCH_SIZE fs)
                  {| modifiedCount := 0; errorCount := 0 |} a b Hab) as H.
    cbv zeta in H. by rewrite consecutive_batches_join in H. }
  split; [by apply Hrun|].
  unfold _removeReservedConcurrencyFromAws, Legacy._removeReservedConcurrencyFromAws,
    _measureExecutionTime.
  set (a := log INFO (Starting "Remove reserved concurrency from AWS for all functions") st).
  set (b := log INFO (Starting "Remove reserved concurrency from AWS") st).
  change (default [] (functions (descriptor a)))
    with (default [] (functions (descriptor st))).
  change (default [] (functions (descriptor b)))
    with (default [] (functions (descriptor st))).
  pose proof (Hrun (default [] (functions (descriptor st))) a b) as H.
  cbv zeta in H.
  destruct (_processAwsFunctionsInBatches request _ [] a) as [[m e] sa].
  destruct (Legacy.for_of_entries request _ 0 0 b) as [[m' e'] sb].
  simpl in H. destruct H as (-> & -> & Hd & Hr & Hq); [done|].
  unfold _logAwsResult. simpl.
  destruct (0 <? m), (e =? 0), (0 <? e); by repeat split.
Qed.

Example sequential_revision_run :
  let out := Legacy._removeReservedConcurrencyFromAws lambda_request
               (initial {| service := "svc"; stage := "dev";
                           functions := Some seven_functions |} six_deployed) in
  out.1 = Return tt
  ∧ FunctionName <$> requests out.2 =
      ["svc-dev-f1"; "svc-dev-f1"; "svc-dev-f2"; "svc-dev-f2"; "svc-dev-f3";
       "svc-dev-f4"; "svc-dev-f4"; "svc-dev-f5"; "svc-dev-f5";
       "svc-dev-f6"; "svc-dev-f6"; "svc-dev-f7"; "svc-dev-f7"]
  ∧ count is_error (logged out.2) = 2.
Proof. vm_compute. done. Qed.

(** ** After a run without errors *)

Section AfterCleanRun.
Context {World : Type}.
Variable request : Method → string → World → Response * World.
Variable reserved : World → string → bool.
Hypothesis laws : ProviderLaws request reserved.
Implicit Types (st : State World) (t : Task) (ts : list Task) (batch entries : Functions).

Lemma fetch_only_inv_resume st0 pre t post st :
  fetch_only_inv reserved st0 (pre ++ t :: post) st →
  fetch_only_inv reserved st0 (pre ++ (resume request t st).1 :: post)
                 (resume request t st).2.
Proof.
  intros (Hinv & new & Hq & Hall).
  split; [by apply (second_run_inv_resume request reserved laws)|].
  assert (Ht : modifies_nothing reserved (remote st) t).
  { unfold second_run_inv in Hinv. apply Forall_app in Hinv as [_ H].
    by apply Forall_cons in H as [H _]. }
  destruct t as [r|fn [aws|aws]]; simpl in *; [by exists new| |done].
  unfold settle_request.
  destruct (request getFunctionConfiguration aws (remote st)) as [[msg|[n|]] w];
    simpl; eexists (new ++ [_]);
    (split; [by rewrite Hq, <- app_assoc|]);
    apply Forall_app; (split; [done|]); by repeat constructor.
Qed.

Lemma fetch_only_batch batch schedule st :
  (∀ e, e ∈ batch → settled reserved st (remote st) e) →
  let out := Promise_all request schedule (start_batch batch st).1
                         (start_batch batch st).2 in
  ∃ new, requests out.2 = requests st ++ new
         ∧ Forall (λ r, method r = getFunctionConfiguration) new.
Proof.
  intros Hsettled out.
  destruct (start_batch_spec batch st) as (Hd & Hq & Hr & Hts).
  pose proof (Promise_all_invariant request (fetch_only_inv reserved st)
                (fetch_only_inv_resume st) schedule (start_batch batch st).1
                (start_batch batch st).2) as H.
  fold out in H. destruct H as (_ & new & Hnew); [|by exists new].
  split.
  - unfold second_run_inv. rewrite Hts, Hr.
    apply Forall_fmap, Forall_forall. intros e Hin. simpl.
    destruct (skips st e) eqn:E; simpl; [done|].
    destruct (Hsettled e Hin) as [Hs|Hc]; [congruence | done].
  - exists []. by rewrite app_nil_r.
Qed.

Lemma fetch_only_run entries schedules st0 st :
  descriptor st = descriptor st0 →
  (∀ e, e ∈ entries → settled reserved st0 (remote st) e) →
  ∃ new,
    requests (_processAwsFunctionsInBatches request entries schedules st).2
    = requests st ++ new
    ∧ Forall (λ r, method r = getFunctionConfiguration) new.
Proof.
  intros Hd0 Hsettled. rewrite processAwsFunctionsInBatches_run.
  destruct (run_batches_invariant_on request
              (λ batch, ∀ e, e ∈ batch → e ∈ entries)
              (λ _ _ st', fetch_only_run_inv reserved st0 (requests st) entries st'))
    with (batches := consecutive_batches AWS_CONCURRENCY_BATCH_SIZE entries)
         (schedules := schedules) (done := @nil (string * FunctionConfig))
         (acc := {| modifiedCount := 0; errorCount := 0 |}) (st := st)
    as (_ & _ & Hnew); [| apply consecutive_batches_within | | exact Hnew].
  - intros done0 batch schedule acc st' Hb (Hd & Hall & new & Hq & Hnew).
    destruct (fetch_only_batch batch schedule st') as (new' & Hq' & Hnew').
    { intros e Hin.
      apply (settled_descriptor reserved st0 st' _ e Hd). by apply Hall, Hb. }
    split; [|split].
    + by rewrite (batch_descriptor request).
    + intros e Hin. by apply (batch_keeps_settled request reserved laws), Hall.
    + exists (new ++ new'). rewrite Hq', Hq, <- app_assoc.
      split; [done | by apply Forall_app].
  - split; [done|]. split; [done|]. exists []. by rewrite app_nil_r.
Qed.

End AfterCleanRun.
